(** * AppRole SecretID storage: a shallow embedding of
      builtin/credential/approle/validation.go

    The Go code is translated function by function.  Strings are Go strings
    (sequences of bytes), [int] and [time.Duration] are integers whose
    arithmetic is never used beyond comparison and one addition, so they are
    carried as [Z].  Storage, the clock, the UUID source and the work of
    other goroutines are explicit components of a [world] that every
    effectful function threads through. *)

From Stdlib Require Import ZArith String Ascii List Bool Lia.
From stdpp Require Import base option list gmap strings sorting.

Import ListNotations.
Local Open Scope Z_scope.
Local Open Scope string_scope.
Local Open Scope list_scope.

(** ** crypto/sha256, crypto/hmac and encoding/hex

    The digest used by [createHMAC] comes from the Go standard library.  It
    is written out here (FIPS 180-4 and RFC 2104) over 32-bit words carried
    in [Z], so that storage keys can be computed. *)
Module Sha256.

Definition w32 (x : Z) : Z := Z.land x 0xffffffff.

Definition add32 (x y : Z) : Z := w32 (x + y).

Definition rotr (n x : Z) : Z :=
  Z.lor (Z.shiftr x n) (w32 (Z.shiftl x (32 - n))).

Definition Ch (x y z : Z) : Z :=
  Z.lxor (Z.land x y) (Z.land (Z.lxor x 0xffffffff) z).

Definition Maj (x y z : Z) : Z :=
  Z.lxor (Z.lxor (Z.land x y) (Z.land x z)) (Z.land y z).

Definition bsig0 (x : Z) : Z :=
  Z.lxor (Z.lxor (rotr 2 x) (rotr 13 x)) (rotr 22 x).

Definition bsig1 (x : Z) : Z :=
  Z.lxor (Z.lxor (rotr 6 x) (rotr 11 x)) (rotr 25 x).

Definition ssig0 (x : Z) : Z :=
  Z.lxor (Z.lxor (rotr 7 x) (rotr 18 x)) (Z.shiftr x 3).

Definition ssig1 (x : Z) : Z :=
  Z.lxor (Z.lxor (rotr 17 x) (rotr 19 x)) (Z.shiftr x 10).

(** The round constants and the initial hash value are not tabulated but
    computed as FIPS 180-4 defines them: the first 32 bits of the fractional
    parts of the cube roots of the first 64 primes, and of the square roots
    of the first 8. *)
Definition isPrime (n : Z) : bool :=
  forallb (fun d => negb (n mod Z.of_nat d =? 0)%Z) (seq 2 (Z.to_nat n - 2)).

Definition primes : list Z :=
  List.filter isPrime (List.map Z.of_nat (seq 2 310)).

(** Largest [r] below [2 ^ bit] with [r ^ pow <= n], found bit by bit. *)
Fixpoint iroot (pow : Z) (bit : nat) (n r : Z) : Z :=
  match bit with
  | O => r
  | S bit' =>
      let c := r + 2 ^ Z.of_nat bit' in
      iroot pow bit' n (if (c ^ pow <=? n)%Z then c else r)
  end.

Definition fracRoot (pow : Z) (p : Z) : Z :=
  w32 (iroot pow 40 (p * 2 ^ (32 * pow)) 0).

Definition K : list Z := Eval vm_compute in List.map (fracRoot 3) primes.

Definition H0 : list Z := Eval vm_compute in List.map (fracRoot 2) (firstn 8 primes).

(** Big-endian bytes of a value, [n] bytes wide. *)
Fixpoint be_bytes (n : nat) (x : Z) : list Z :=
  match n with
  | O => []
  | S n' => Z.land (Z.shiftr x (8 * Z.of_nat n')) 0xff :: be_bytes n' x
  end.

Definition be_word (bs : list Z) : Z :=
  fold_left (fun acc b => Z.lor (Z.shiftl acc 8) b) bs 0.

(** Message padding: 0x80, zero bytes up to 56 mod 64, then the bit length
    on 8 bytes. *)
Definition pad (msg : list Z) : list Z :=
  let len := Z.of_nat (List.length msg) in
  let zeros := Z.to_nat ((55 - len) mod 64) in
  msg ++ 0x80 :: repeat 0 zeros ++ be_bytes 8 (8 * len).

Fixpoint chunks (fuel : nat) (k : nat) (bs : list Z) : list (list Z) :=
  match fuel with
  | O => []
  | S fuel' =>
      match bs with
      | [] => []
      | _ => firstn k bs :: chunks fuel' k (skipn k bs)
      end
  end.

Definition words_of_block (block : list Z) : list Z :=
  List.map be_word (chunks 16 4 block).

(** The message schedule, newest word first: [rw] holds W[t-1], W[t-2], .. *)
Fixpoint extend (n : nat) (rw : list Z) : list Z :=
  match n with
  | O => rw
  | S n' =>
      let w := add32 (add32 (ssig1 (nth 1 rw 0)) (nth 6 rw 0))
                     (add32 (ssig0 (nth 14 rw 0)) (nth 15 rw 0)) in
      extend n' (w :: rw)
  end.

Definition schedule (block : list Z) : list Z :=
  rev (extend 48 (rev (words_of_block block))).

Record regs := Regs { ra : Z; rb : Z; rc : Z; rd : Z;
                      re : Z; rf : Z; rg : Z; rh : Z }.

Definition round (s : regs) (kw : Z * Z) : regs :=
  let t1 := add32 (add32 (add32 (rh s) (bsig1 (re s)))
                         (add32 (Ch (re s) (rf s) (rg s)) (fst kw)))
                  (snd kw) in
  let t2 := add32 (bsig0 (ra s)) (Maj (ra s) (rb s) (rc s)) in
  Regs (add32 t1 t2) (ra s) (rb s) (rc s) (add32 (rd s) t1) (re s) (rf s) (rg s).

Definition regs_of (h : list Z) : regs :=
  Regs (nth 0 h 0) (nth 1 h 0) (nth 2 h 0) (nth 3 h 0)
       (nth 4 h 0) (nth 5 h 0) (nth 6 h 0) (nth 7 h 0).

Definition list_of (s : regs) : list Z :=
  [ra s; rb s; rc s; rd s; re s; rf s; rg s; rh s].

Definition compress (h : list Z) (block : list Z) : list Z :=
  let s := fold_left round (combine K (schedule block)) (regs_of h) in
  List.map (fun p => add32 (fst p) (snd p)) (combine h (list_of s)).

Definition sum256 (msg : list Z) : list Z :=
  let padded := pad msg in
  let blocks := chunks (List.length padded) 64 padded in
  List.concat (List.map (be_bytes 4) (fold_left compress blocks H0)).

(** hmac.New(sha256.New, key) followed by Write(msg) and Sum(nil). *)
Definition blockSize : nat := 64.

Definition hmac (key msg : list Z) : list Z :=
  let key0 := if (Nat.ltb blockSize (List.length key)) then sum256 key else key in
  let key1 := key0 ++ repeat 0 (blockSize - List.length key0) in
  let ipad := List.map (Z.lxor 0x36) key1 in
  let opad := List.map (Z.lxor 0x5c) key1 in
  sum256 (opad ++ sum256 (ipad ++ msg)).

Definition bytes_of_string (s : string) : list Z :=
  List.map (fun a => Z.of_N (N_of_ascii a)) (list_ascii_of_string s).

Definition hexdigit (d : Z) : ascii :=
  nth (Z.to_nat d) (list_ascii_of_string "0123456789abcdef") "0"%char.

(** hex.EncodeToString *)
Fixpoint EncodeToString (bs : list Z) : string :=
  match bs with
  | [] => EmptyString
  | b :: rest =>
      String (hexdigit (Z.shiftr b 4))
        (String (hexdigit (Z.land b 0xf)) (EncodeToString rest))
  end.

End Sha256.

(** ** Errors

    A Go [error] value: either made by [errors.New], or by [fmt.Errorf] with
    its format string, its arguments and the error wrapped by [%w]. *)
Inductive fmtArg : Type :=
| ArgInt (n : Z)
| ArgString (s : string)
| ArgStrings (l : list string).

#[local] Set Warnings "-register-all".
Inductive error : Type :=
| errors_New (msg : string)
| fmt_Errorf (format : string) (args : list fmtArg) (wrapped : option error).

Inductive result (A : Type) : Type :=
| Ok (a : A)
| Err (e : error).
Arguments Ok {A} a.
Arguments Err {A} e.

Definition maxHmacInputLength : Z := 4096.

(** Creates a SHA256 HMAC of the given 'value' using the given 'key' and
    returns a hex encoded string. *)
Definition createHMAC (key value : string) : result string :=
  if String.eqb key "" then Err (errors_New "invalid HMAC key")
  else if (Z.of_nat (String.length value) >? maxHmacInputLength)%Z then
    Err (fmt_Errorf "value is longer than maximum of %d bytes"
           [ArgInt maxHmacInputLength] None)
  else
    Ok (Sha256.EncodeToString
          (Sha256.hmac (Sha256.bytes_of_string key) (Sha256.bytes_of_string value))).

(** ** Data model *)

(** secretIDStorageEntry represents the information stored in storage when a
    SecretID is created.  [time.Time] is carried as the number of nanoseconds
    since the zero instant, so the zero value of the Go type is [0] and
    [t.Add(d)] is [t + d]. *)
Record secretIDStorageEntry : Type := {
  SecretIDAccessor : string;
  SecretIDNumUses : Z;
  SecretIDTTL : Z;
  CreationTime : Z;
  ExpirationTime : Z;
  LastUpdatedTime : Z;
  Metadata : gmap string string;
  CIDRList : list string;
  TokenBoundCIDRs : list string;
  SecretIDNumUsesDeprecated : Z;
}.

(** Represents the payload of the storage entry of the accessor that maps to
    a unique SecretID. *)
Record secretIDAccessorStorageEntry : Type := {
  SecretIDHMAC : string;
}.

Definition zeroSecretIDStorageEntry : secretIDStorageEntry :=
  {| SecretIDAccessor := ""; SecretIDNumUses := 0; SecretIDTTL := 0;
     CreationTime := 0; ExpirationTime := 0; LastUpdatedTime := 0;
     Metadata := ∅; CIDRList := []; TokenBoundCIDRs := [];
     SecretIDNumUsesDeprecated := 0 |}.

(** The value of a [logical.StorageEntry]: the JSON encoding of one of the
    two records above, or bytes that are not JSON at all. *)
Inductive document : Type :=
| DocSecretID (e : secretIDStorageEntry)
| DocAccessor (a : secretIDAccessorStorageEntry)
| DocGarbage (raw : string).

(** [entry.DecodeJSON(&result)] with [result] a [secretIDStorageEntry]:
    fields absent from the JSON object keep their zero value, and bytes that
    are not JSON are an error. *)
Definition DecodeJSON (d : document) : result secretIDStorageEntry :=
  match d with
  | DocSecretID e => Ok e
  | DocAccessor _ => Ok zeroSecretIDStorageEntry
  | DocGarbage _ => Err (errors_New "invalid character looking for beginning of value")
  end.

(** ** The world the backend runs in *)

Inductive call : Type :=
| Get (key : string)
| Put (key : string) (value : document)
| Delete (key : string)
| List (prefix : string).

Inductive lockId : Type :=
| secretIDLock (secretIDHMAC : string)
| secretIDAccessorLock (secretIDAccessor : string)
| secretIDListingLock.

Inductive lockOp : Type := RLock | RUnlock | Lock | Unlock.

(** What an observer of the process sees: storage calls with their outcome
    ([None] for success) and lock operations. *)
Inductive event : Type :=
| Storage (c : call) (outcome : option error)
| Locking (op : lockOp) (l : lockId).

Record world : Type := {
  store : gmap string document;
  (** outcome of the storage calls to come, oldest first; when the list is
      used up every call succeeds *)
  faults : list (option error);
  (** results of the calls of uuid.GenerateUUID to come *)
  uuids : list (result string);
  (** time.Now() *)
  clock : Z;
  (** what other goroutines do to storage while this one holds no lock on
      the SecretID, that is between [RUnlock] and [Lock] in
      [registerSecretIDEntry] *)
  race : gmap string document -> gmap string document;
  trace : list event;
}.

Definition log (e : event) (w : world) : world :=
  {| store := store w; faults := faults w; uuids := uuids w; clock := clock w;
     race := race w; trace := trace w ++ [e] |}.

Definition setStore (m : gmap string document) (w : world) : world :=
  {| store := m; faults := faults w; uuids := uuids w; clock := clock w;
     race := race w; trace := trace w |}.

Definition setFaults (fs : list (option error)) (w : world) : world :=
  {| store := store w; faults := fs; uuids := uuids w; clock := clock w;
     race := race w; trace := trace w |}.

Definition setUuids (us : list (result string)) (w : world) : world :=
  {| store := store w; faults := faults w; uuids := us; clock := clock w;
     race := race w; trace := trace w |}.

(** *** A state and error monad over the world *)
Definition M (A : Type) : Type := world -> result A * world.

Definition ret {A : Type} (a : A) : M A := fun w => (Ok a, w).

Definition fail {A : Type} (e : error) : M A := fun w => (Err e, w).

Definition bind {A B : Type} (m : M A) (k : A -> M B) : M B :=
  fun w => match m w with
           | (Ok a, w') => k a w'
           | (Err e, w') => (Err e, w')
           end.

(** Runs [m] and hands its outcome, error included, to the continuation:
    Go's [v, err := f()]. *)
Definition catch {A : Type} (m : M A) : M (result A) :=
  fun w => let (r, w') := m w in (Ok r, w').

(** Go's [defer]: [cleanup] runs when [body] returns, with or without an
    error. *)
Definition defer {A : Type} (cleanup : world -> world) (body : M A) : M A :=
  fun w => let (r, w') := body w in (r, cleanup w').

Notation "x <- m ;; k" := (bind m (fun x => k))
  (at level 100, m at next level, right associativity).
Notation "m ;;; k" := (bind m (fun _ => k))
  (at level 100, right associativity).

Definition lockop (op : lockOp) (l : lockId) : M unit :=
  fun w => (Ok tt, log (Locking op l) w).

(** *** The storage backend

    Modelled from the spec: the storage backend (logical.Storage) is a
    collaborator of this package, "get(key) → entry|absent, put(key, entry),
    delete(key), list(prefix) → ordered set of child keys".  A call that
    fails leaves storage as it was. *)
Definition nextFault (w : world) : option error * world :=
  (hd None (faults w), setFaults (tl (faults w)) w).

Definition storageCall {A : Type} (c : call)
    (run : gmap string document -> A * gmap string document) : M A :=
  fun w =>
    let (f, w1) := nextFault w in
    match f with
    | Some e => (Err e, log (Storage c (Some e)) w1)
    | None =>
        let (a, m) := run (store w1) in
        (Ok a, log (Storage c None) (setStore m w1))
    end.

Fixpoint Contains (s substr : string) : bool :=
  if String.prefix substr s then true
  else match s with
       | EmptyString => false
       | String _ s' => Contains s' substr
       end.

Fixpoint upToSlash (s : string) : string :=
  match s with
  | EmptyString => EmptyString
  | String c s' =>
      if Ascii.eqb c "/" then String c EmptyString else String c (upToSlash s')
  end.

(** The child of [prefix] that [key] lies under, if any: the rest of the
    key, cut after its first "/". *)
Definition childOf (prefix key : string) : option string :=
  if String.prefix prefix key then
    let rest := String.substring (String.length prefix)
                  (String.length key - String.length prefix) key in
    if String.eqb rest "" then None else Some (upToSlash rest)
  else None.

Definition children (prefix : string) (m : gmap string document) : list string :=
  merge_sort (fun a b => String.leb a b)
    (remove_dups (omap (childOf prefix) (fst <$> map_to_list m))).

Definition s_Get (key : string) : M (option document) :=
  storageCall (Get key) (fun m => (m !! key, m)).

Definition s_Put (key : string) (value : document) : M unit :=
  storageCall (Put key value) (fun m => (tt, <[key := value]> m)).

Definition s_Delete (key : string) : M unit :=
  storageCall (Delete key) (fun m => (tt, delete key m)).

Definition s_List (prefix : string) : M (list string) :=
  storageCall (List prefix) (fun m => (children prefix m, m)).
(** ** What this file takes from the rest of the repository

    The package constants naming the storage prefixes and two helpers of
    other packages are declared outside the translated file; they are
    parameters of the development. *)
Class Imports : Type := {
  secretIDLocalPrefix : string;
  secretIDAccessorPrefix : string;
  secretIDAccessorLocalPrefix : string;
  (** parseip.TrimLeadingZeroesCIDR *)
  TrimLeadingZeroesCIDR : string -> string;
  (** cidrutil.SubsetBlocks(cidrBlocks1, cidrBlocks2): the verdict and the
      error it returns *)
  SubsetBlocks : list string -> list string -> bool * option error;
}.

(** The parts of [*backend] the functions read: [b.System().MaxLeaseTTL()]
    and the outcome of [b.Salt(ctx)], an error or the salt's [SaltID]. *)
Record backend : Type := {
  MaxLeaseTTL : Z;
  Salt : result (string -> string);
}.

(** Go slices of strings live in a heap of backing arrays: a slice value is
    the address of its array, and two slice values with the same address
    share their elements.  An address the heap does not hold is the nil
    slice. *)
Abbreviation heap := (gmap nat (list string)).

Definition elems (h : heap) (s : nat) : list string := default [] (h !! s).

Section Approle.
Context `{Imports}.

(** The loop of [verifyCIDRRoleSecretIDSubset] over the indices of
    [roleBoundCIDRList]:
    [if !strings.Contains(block, "/") { roleBoundCIDRList[i] = fmt.Sprint(block, "/32") }]. *)
Fixpoint appendMask (roleBoundCIDRList : nat) (indices : list nat) (h : heap) : heap :=
  match indices with
  | [] => h
  | i :: rest =>
      match elems h roleBoundCIDRList !! i with
      | Some block =>
          if negb (Contains block "/") then
            appendMask roleBoundCIDRList rest
              (<[roleBoundCIDRList := <[i := block +:+ "/32"]> (elems h roleBoundCIDRList)]> h)
          else appendMask roleBoundCIDRList rest h
      | None => appendMask roleBoundCIDRList rest h
      end
  end.

(** The end of [verifyCIDRRoleSecretIDSubset]:
    [if !subset || err != nil { return fmt.Errorf(..., roleBoundCIDRList, secretIDCIDRs, err) }]. *)
Definition subsetFailure (roleBoundCIDRList secretIDCIDRs : list string)
    (subset : bool) (err : option error) : option error :=
  if negb subset || bool_decide (is_Some err) then
    Some (fmt_Errorf
            "failed to verify subset relationship between CIDR blocks on the role %q and CIDR blocks on the secret ID %q: %w"
            [ArgStrings roleBoundCIDRList; ArgStrings secretIDCIDRs] err)
  else None.

(** verifyCIDRRoleSecretIDSubset checks if the CIDR blocks set on the
    secret ID are a subset of CIDR blocks set on the role.  Returns the
    error ([None] is nil) and the heap the caller sees afterwards. *)
Definition verifyCIDRRoleSecretIDSubset (secretIDCIDRs roleBoundCIDRList : nat)
    (h : heap) : option error * heap :=
  if negb (Nat.eqb (List.length (elems h secretIDCIDRs)) 0) then
    if negb (Nat.eqb (List.length (elems h roleBoundCIDRList)) 0) then
      let h' := appendMask roleBoundCIDRList
                  (seq 0 (List.length (elems h roleBoundCIDRList))) h in
      let (subset, err) :=
        SubsetBlocks (elems h' roleBoundCIDRList) (elems h' secretIDCIDRs) in
      (subsetFailure (elems h' roleBoundCIDRList) (elems h' secretIDCIDRs) subset err, h')
    else (None, h)
  else (None, h).

(** The closure [cleanup] of [decodeSecretIDStorageEntry]. *)
Definition cleanup (input : list string) : list string :=
  if Nat.eqb (List.length input) 0 then input
  else List.map TrimLeadingZeroesCIDR input.

Definition decodeSecretIDStorageEntry (entry : document) : result secretIDStorageEntry :=
  match DecodeJSON entry with
  | Err err => Err err
  | Ok r =>
      Ok {| SecretIDAccessor := SecretIDAccessor r;
            SecretIDNumUses := SecretIDNumUses r;
            SecretIDTTL := SecretIDTTL r;
            CreationTime := CreationTime r;
            ExpirationTime := ExpirationTime r;
            LastUpdatedTime := LastUpdatedTime r;
            Metadata := Metadata r;
            CIDRList := cleanup (CIDRList r);
            TokenBoundCIDRs := cleanup (TokenBoundCIDRs r);
            SecretIDNumUsesDeprecated := SecretIDNumUsesDeprecated r |}
  end.

Definition setNumUses (n : Z) (r : secretIDStorageEntry) : secretIDStorageEntry :=
  {| SecretIDAccessor := SecretIDAccessor r; SecretIDNumUses := n;
     SecretIDTTL := SecretIDTTL r; CreationTime := CreationTime r;
     ExpirationTime := ExpirationTime r; LastUpdatedTime := LastUpdatedTime r;
     Metadata := Metadata r; CIDRList := CIDRList r;
     TokenBoundCIDRs := TokenBoundCIDRs r;
     SecretIDNumUsesDeprecated := SecretIDNumUsesDeprecated r |}.

Definition setNumUsesDeprecated (n : Z) (r : secretIDStorageEntry) : secretIDStorageEntry :=
  {| SecretIDAccessor := SecretIDAccessor r; SecretIDNumUses := SecretIDNumUses r;
     SecretIDTTL := SecretIDTTL r; CreationTime := CreationTime r;
     ExpirationTime := ExpirationTime r; LastUpdatedTime := LastUpdatedTime r;
     Metadata := Metadata r; CIDRList := CIDRList r;
     TokenBoundCIDRs := TokenBoundCIDRs r;
     SecretIDNumUsesDeprecated := n |}.

(** The upgrade bit of [nonLockedSecretIDStorageEntry]: the entry after the
    two assignments, and [persistNeeded]. *)
Definition upgrade (result0 : secretIDStorageEntry) : secretIDStorageEntry * bool :=
  if negb (SecretIDNumUsesDeprecated result0 =? 0)%Z then
    let '(result1, persist1) :=
      if (SecretIDNumUses result0 =? 0)%Z
         || (SecretIDNumUsesDeprecated result0 <? SecretIDNumUses result0)%Z
      then (setNumUses (SecretIDNumUsesDeprecated result0) result0, true)
      else (result0, false) in
    if (SecretIDNumUses result1 <? SecretIDNumUsesDeprecated result1)%Z
    then (setNumUsesDeprecated (SecretIDNumUses result1) result1, true)
    else (result1, persist1)
  else (result0, false).

(** fmt.Sprintf("%s%s/%s", roleSecretIDPrefix, roleNameHMAC, secretIDHMAC) *)
Definition entryIndexOf (roleSecretIDPrefix roleNameHMAC secretIDHMAC : string) : string :=
  roleSecretIDPrefix +:+ roleNameHMAC +:+ "/" +:+ secretIDHMAC.

(** nonLockedSetSecretIDStorageEntry creates or updates a secret ID entry at
    the physical storage.  [secretEntry] is a pointer: [None] is nil.
    [logical.StorageEntryJSON] encodes a record of strings, integers, times
    and lists of strings, which cannot fail; the entry it builds is the
    document [DocSecretID e] under [entryIndex]. *)
Definition nonLockedSetSecretIDStorageEntry
    (roleSecretIDPrefix roleNameHMAC secretIDHMAC : string)
    (secretEntry : option secretIDStorageEntry) : M unit :=
  if String.eqb roleSecretIDPrefix "" then fail (errors_New "missing secret ID prefix")
  else if String.eqb secretIDHMAC "" then fail (errors_New "missing secret ID HMAC")
  else if String.eqb roleNameHMAC "" then fail (errors_New "missing role name HMAC")
  else match secretEntry with
       | None => fail (errors_New "nil secret entry")
       | Some e =>
           let entryIndex := entryIndexOf roleSecretIDPrefix roleNameHMAC secretIDHMAC in
           s_Put entryIndex (DocSecretID e)
       end.

(** nonLockedSecretIDStorageEntry fetches the secret ID properties from
    physical storage.  [Ok None] is the Go result [nil, nil]. *)
Definition nonLockedSecretIDStorageEntry
    (roleSecretIDPrefix roleNameHMAC secretIDHMAC : string)
    : M (option secretIDStorageEntry) :=
  if String.eqb secretIDHMAC "" then fail (errors_New "missing secret ID HMAC")
  else if String.eqb roleNameHMAC "" then fail (errors_New "missing role name HMAC")
  else
    let entryIndex := entryIndexOf roleSecretIDPrefix roleNameHMAC secretIDHMAC in
    entry <- s_Get entryIndex ;;
    match entry with
    | None => ret None
    | Some entry =>
        match decodeSecretIDStorageEntry entry with
        | Err err => fail err
        | Ok result0 =>
            let '(result1, persistNeeded) := upgrade result0 in
            if persistNeeded then
              r <- catch (nonLockedSetSecretIDStorageEntry roleSecretIDPrefix
                            roleNameHMAC secretIDHMAC (Some result1)) ;;
              match r with
              | Err err =>
                  fail (fmt_Errorf "failed to upgrade role storage entry %w" [] (Some err))
              | Ok _ => ret (Some result1)
              end
            else ret (Some result1)
        end
    end.

(** deriveSecretIDTTL determines the secret ID TTL to use based on the
    system's max lease TTL. *)
Definition deriveSecretIDTTL (b : backend) (secretIDTTL : Z) : Z :=
  if (secretIDTTL <? 0)%Z || (secretIDTTL >? MaxLeaseTTL b)%Z then MaxLeaseTTL b
  else secretIDTTL.

Definition GenerateUUID : M string :=
  fun w => match uuids w with
           | [] => (Err (errors_New "failed to read random bytes"), w)
           | r :: rest =>
               (match r with Ok u => Ok u | Err e => Err e end, setUuids rest w)
           end.

Definition setAccessor (a : string) (r : secretIDStorageEntry) : secretIDStorageEntry :=
  {| SecretIDAccessor := a; SecretIDNumUses := SecretIDNumUses r;
     SecretIDTTL := SecretIDTTL r; CreationTime := CreationTime r;
     ExpirationTime := ExpirationTime r; LastUpdatedTime := LastUpdatedTime r;
     Metadata := Metadata r; CIDRList := CIDRList r;
     TokenBoundCIDRs := TokenBoundCIDRs r;
     SecretIDNumUsesDeprecated := SecretIDNumUsesDeprecated r |}.

Definition setTimes (creation updated expiration : Z) (r : secretIDStorageEntry)
    : secretIDStorageEntry :=
  {| SecretIDAccessor := SecretIDAccessor r; SecretIDNumUses := SecretIDNumUses r;
     SecretIDTTL := SecretIDTTL r; CreationTime := creation;
     ExpirationTime := expiration; LastUpdatedTime := updated;
     Metadata := Metadata r; CIDRList := CIDRList r;
     TokenBoundCIDRs := TokenBoundCIDRs r;
     SecretIDNumUsesDeprecated := SecretIDNumUsesDeprecated r |}.

(** createSecretIDAccessorEntry creates an identifier for the SecretID.  A
    storage index, mapping the accessor to the SecretID is also created.
    The Go function writes the accessor through the [entry] pointer; here
    the entry with its accessor set is the result. *)
Definition createSecretIDAccessorEntry (b : backend) (entry : secretIDStorageEntry)
    (secretIDHMAC roleSecretIDPrefix : string) : M secretIDStorageEntry :=
  accessorUUID <- GenerateUUID ;;
  let entry := setAccessor accessorUUID entry in
  match Salt b with
  | Err err => fail err
  | Ok SaltID =>
      let accessorPrefix :=
        if String.eqb roleSecretIDPrefix secretIDLocalPrefix
        then secretIDAccessorLocalPrefix else secretIDAccessorPrefix in
      let entryIndex := accessorPrefix +:+ SaltID (SecretIDAccessor entry) in
      let accessorLock := secretIDAccessorLock accessorUUID in
      lockop Lock accessorLock ;;;
      defer (log (Locking Unlock accessorLock))
        (r <- catch (s_Put entryIndex (DocAccessor {| SecretIDHMAC := secretIDHMAC |})) ;;
         match r with
         | Err err =>
             fail (fmt_Errorf "failed to persist accessor index entry: %w" [] (Some err))
         | Ok _ => ret entry
         end)
  end.

Definition interfere : M unit :=
  fun w => (Ok tt, setStore (race w (store w)) w).

(** registerSecretIDEntry creates a new storage entry for the given
    SecretID.  [secretEntry] is the entry the caller's pointer refers to;
    a nil pointer makes the Go function panic and is left out. *)
Definition registerSecretIDEntry (b : backend)
    (roleName secretID hmacKey roleSecretIDPrefix : string)
    (secretEntry : secretIDStorageEntry) : M secretIDStorageEntry :=
  match createHMAC hmacKey secretID with
  | Err err => fail (fmt_Errorf "failed to create HMAC of secret ID: %w" [] (Some err))
  | Ok secretIDHMAC =>
  match createHMAC hmacKey roleName with
  | Err err => fail (fmt_Errorf "failed to create HMAC of role_name: %w" [] (Some err))
  | Ok roleNameHMAC =>
      let lock := secretIDLock secretIDHMAC in
      lockop RLock lock ;;;
      r <- catch (nonLockedSecretIDStorageEntry roleSecretIDPrefix roleNameHMAC secretIDHMAC) ;;
      match r with
      | Err err => lockop RUnlock lock ;;; fail err
      | Ok (Some _) =>
          lockop RUnlock lock ;;; fail (errors_New "SecretID is already registered")
      | Ok None =>
          lockop RUnlock lock ;;;
          interfere ;;;
          lockop Lock lock ;;;
          defer (log (Locking Unlock lock))
            (entry <- nonLockedSecretIDStorageEntry roleSecretIDPrefix roleNameHMAC secretIDHMAC ;;
             match entry with
             | Some _ => fail (errors_New "SecretID is already registered")
             | None =>
                 currentTime <- (fun w => (Ok (clock w), w)) ;;
                 let ttl := deriveSecretIDTTL b (SecretIDTTL secretEntry) in
                 let secretEntry :=
                   setTimes currentTime currentTime
                     (if negb (ttl =? 0)%Z then currentTime + ttl
                      else ExpirationTime secretEntry) secretEntry in
                 secretEntry <- createSecretIDAccessorEntry b secretEntry secretIDHMAC
                                  roleSecretIDPrefix ;;
                 nonLockedSetSecretIDStorageEntry roleSecretIDPrefix roleNameHMAC
                   secretIDHMAC (Some secretEntry) ;;;
                 ret secretEntry
             end)
      end
  end
  end.

(** The loop of [flushRoleSecrets] over the listed SecretID HMACs. *)
Fixpoint flushLoop (roleSecretIDPrefix roleNameHMAC : string)
    (secretIDHMACs : list string) : M unit :=
  match secretIDHMACs with
  | [] => ret tt
  | secretIDHMAC :: rest =>
      let lock := secretIDLock secretIDHMAC in
      lockop Lock lock ;;;
      let entryIndex := entryIndexOf roleSecretIDPrefix roleNameHMAC secretIDHMAC in
      r <- catch (s_Delete entryIndex) ;;
      match r with
      | Err err =>
          lockop Unlock lock ;;;
          fail (fmt_Errorf "error deleting SecretID %q from storage: %w"
                  [ArgString secretIDHMAC] (Some err))
      | Ok _ =>
          lockop Unlock lock ;;;
          flushLoop roleSecretIDPrefix roleNameHMAC rest
      end
  end.

(** flushRoleSecrets deletes all the SecretIDs that belong to the given
    RoleID.  The Go function returns an [error] and nothing else: [Ok tt]
    is nil. *)
Definition flushRoleSecrets (roleName hmacKey roleSecretIDPrefix : string) : M unit :=
  match createHMAC hmacKey roleName with
  | Err err => fail (fmt_Errorf "failed to create HMAC of role_name: %w" [] (Some err))
  | Ok roleNameHMAC =>
      lockop RLock secretIDListingLock ;;;
      defer (log (Locking RUnlock secretIDListingLock))
        (secretIDHMACs <- s_List (roleSecretIDPrefix +:+ roleNameHMAC +:+ "/") ;;
         flushLoop roleSecretIDPrefix roleNameHMAC secretIDHMACs)
  end.

End Approle.

(** What the loop of [verifyCIDRRoleSecretIDSubset] leaves where it found
    [block]. *)
Definition withMask (block : string) : string :=
  if Contains block "/" then block else block +:+ "/32".

(** C6 as the specification words it: the bare addresses of both lists get
    their mask, then containment is checked. *)
Definition verifySubset_bothMasked `{Imports} (entryCIDRs roleBoundCIDRs : list string)
    : option error :=
  match entryCIDRs, roleBoundCIDRs with
  | [], _ | _, [] => None
  | _, _ =>
      let (subset, err) :=
        SubsetBlocks (withMask <$> roleBoundCIDRs) (withMask <$> entryCIDRs) in
      subsetFailure (withMask <$> roleBoundCIDRs) (withMask <$> entryCIDRs) subset err
  end.

(** *** A containment check over IPv4 blocks

    Modelled from the spec: cidrutil.SubsetBlocks belongs to another package
    of the repository.  "Every entry block must resolve to an address range
    fully contained within the union of the role's ranges"; a block resolves
    to a range when it is written address/mask, which is why bare addresses
    have to be given a mask before the check. *)
Fixpoint splitOn (sep : ascii) (s : string) : list string :=
  match s with
  | EmptyString => [EmptyString]
  | String c s' =>
      if Ascii.eqb c sep then EmptyString :: splitOn sep s'
      else match splitOn sep s' with
           | [] => [String c EmptyString]
           | x :: xs => String c x :: xs
           end
  end.

Definition digitOf (c : ascii) : option Z :=
  let n := Z.of_N (N_of_ascii c) in
  if (48 <=? n)%Z && (n <=? 57)%Z then Some (n - 48) else None.

Definition parseDecimal (s : string) : option Z :=
  match s with
  | EmptyString => None
  | _ => fold_left (fun acc c =>
                      match acc, digitOf c with
                      | Some a, Some d => Some (10 * a + d)
                      | _, _ => None
                      end) (list_ascii_of_string s) (Some 0)
  end.

Definition parseIPv4 (s : string) : option Z :=
  match mapM parseDecimal (splitOn "." s) with
  | Some [a; b; c; d] =>
      if forallb (fun x => (x <=? 255)%Z) [a; b; c; d]
      then Some (((a * 256 + b) * 256 + c) * 256 + d) else None
  | _ => None
  end.

(** The first and last address of a block. *)
Definition parseCIDR (s : string) : option (Z * Z) :=
  match splitOn "/" s with
  | [ip; mask] =>
      match parseIPv4 ip, parseDecimal mask with
      | Some a, Some m =>
          if (m <=? 32)%Z then
            let size := 2 ^ (32 - m) in
            let first := a / size * size in
            Some (first, first + size - 1)
          else None
      | _, _ => None
      end
  | _ => None
  end.

(** Is [first .. last] inside the union of [ranges]?  Each round jumps to
    the end of the widest range holding [first]. *)
Fixpoint covered (fuel : nat) (ranges : list (Z * Z)) (first last : Z) : bool :=
  if (last <? first)%Z then true
  else match fuel with
       | O => false
       | S fuel' =>
           let reach :=
             fold_left (fun acc r =>
                          if (fst r <=? first)%Z && (first <=? snd r)%Z
                          then Z.max acc (snd r) else acc) ranges (first - 1) in
           if (reach <? first)%Z then false
           else covered fuel' ranges (reach + 1) last
       end.

Definition ipv4SubsetBlocks (roleBlocks entryBlocks : list string) : bool * option error :=
  match mapM parseCIDR roleBlocks, mapM parseCIDR entryBlocks with
  | Some rs, Some es =>
      (forallb (fun e => covered (List.length rs) rs (fst e) (snd e)) es, None)
  | _, _ => (false, Some (errors_New "invalid CIDR address"))
  end.

(** Sample values for what the file imports, used to run the functions. *)
Definition sampleImports : Imports :=
  {| secretIDLocalPrefix := "secret_id_local/";
     secretIDAccessorPrefix := "accessor/";
     secretIDAccessorLocalPrefix := "accessor_local/";
     TrimLeadingZeroesCIDR := fun cidr => cidr;
     SubsetBlocks := ipv4SubsetBlocks |}.


(** ** Observing a run *)

(** The events a run from [w] to [w'] added to the trace. *)
Definition since (w w' : world) : list event :=
  drop (List.length (trace w)) (trace w').

(** A storage call that changed storage. *)
Definition isWrite (e : event) : bool :=
  match e with
  | Storage (Put _ _) None | Storage (Delete _) None => true
  | _ => false
  end.

Definition isDelete (e : event) : bool :=
  match e with
  | Storage (Delete _) None => true
  | _ => false
  end.

(** The use count both fields hold after the upgrade bit, for stored
    canonical and deprecated counts [numUses] and [deprecated]: the smaller
    of the two that is not zero. *)
Definition smallerNonZero (numUses deprecated : Z) : Z :=
  if (numUses =? 0)%Z then deprecated
  else if (deprecated =? 0)%Z then numUses
  else Z.min numUses deprecated.


(** ** Sample inputs, used to run the functions *)

Definition sampleBackend : backend :=
  {| MaxLeaseTTL := 3600; Salt := Ok (fun id => "salt:" +:+ id) |}.

Definition digestOf (key value : string) : string :=
  match createHMAC key value with Ok digest => digest | Err _ => "" end.

(** The storage key of SecretID "secret1" of role "role1" under the HMAC key
    "hmac-key". *)
Definition sampleKey : string :=
  entryIndexOf "secret_id/" (digestOf "hmac-key" "role1") (digestOf "hmac-key" "secret1").

Definition freshWorld : world :=
  {| store := ∅; faults := []; uuids := [Ok "uuid-0001"]; clock := 1000;
     race := fun m => m; trace := [] |}.

Definition withNumUses (numUses deprecated : Z) : secretIDStorageEntry :=
  setNumUsesDeprecated deprecated (setNumUses numUses zeroSecretIDStorageEntry).

(** An entry written by an old release: only the deprecated use count is
    set. *)
Definition legacyEntry : secretIDStorageEntry := withNumUses 0 5.

Definition legacyWorld : world :=
  setStore {[ sampleKey := DocSecretID legacyEntry ]} freshWorld.


(** What one successful turn of the loop of [flushRoleSecrets] adds to the
    trace. *)
Definition deleted (roleSecretIDPrefix roleNameHMAC secretIDHMAC : string) : list event :=
  [ Locking Lock (secretIDLock secretIDHMAC);
    Storage (Delete (entryIndexOf roleSecretIDPrefix roleNameHMAC secretIDHMAC)) None;
    Locking Unlock (secretIDLock secretIDHMAC) ].


Definition storageDown : error := errors_New "storage unavailable".

(** The entry of the end-to-end example: one use, no TTL. *)
Definition oneUseEntry : secretIDStorageEntry := withNumUses 1 0.

(** Storage fails at the write of the accessor index entry. *)
Definition accessorFailsWorld : world :=
  setFaults [None; None; Some storageDown] freshWorld.

(** Another goroutine registers the same SecretID during the lock switch. *)
Definition racedWorld : world :=
  {| store := ∅; faults := []; uuids := [Ok "uuid-0001"]; clock := 1000;
     race := fun m => <[sampleKey := DocSecretID oneUseEntry]> m; trace := [] |}.

Definition flushKey (secretIDHMAC : string) : string :=
  entryIndexOf "secret_id/" (digestOf "hmac-key" "role1") secretIDHMAC.

(** Role "role1" owns one SecretID, and its delete fails. *)
Definition flushWorldA : world :=
  {| store := {[ flushKey "b" := DocSecretID oneUseEntry ]};
     faults := [None; Some storageDown]; uuids := []; clock := 1000;
     race := fun m => m; trace := [] |}.

(** Role "role1" owns two SecretIDs; the first delete succeeds, the second
    fails. *)
Definition flushWorldB : world :=
  {| store := <[ flushKey "a" := DocSecretID oneUseEntry ]>
                {[ flushKey "b" := DocSecretID oneUseEntry ]};
     faults := [None; None; Some storageDown]; uuids := []; clock := 1000;
     race := fun m => m; trace := [] |}.


(** ** The accessor index: lookup and removal *)

(** [entry.DecodeJSON(&result)] with [result] a
    [secretIDAccessorStorageEntry]: fields absent from the JSON object keep
    their zero value, and bytes that are not JSON are an error. *)
Definition DecodeJSONAccessor (d : document) : result secretIDAccessorStorageEntry :=
  match d with
  | DocAccessor a => Ok a
  | DocSecretID _ => Ok {| SecretIDHMAC := "" |}
  | DocGarbage _ => Err (errors_New "invalid character looking for beginning of value")
  end.

Section AccessorIndex.
Context `{Imports}.

(** The storage key of an accessor, as the three accessor functions build
    it: the accessor prefix that goes with [roleSecretIDPrefix], then the
    salted accessor. *)
Definition accessorIndexOf (SaltID : string -> string)
    (roleSecretIDPrefix secretIDAccessor : string) : string :=
  (if String.eqb roleSecretIDPrefix secretIDLocalPrefix
   then secretIDAccessorLocalPrefix else secretIDAccessorPrefix)
  +:+ SaltID secretIDAccessor.

(** secretIDAccessorEntry is used to read the storage entry that maps an
    accessor to a secret_id.  [Ok None] is the Go result [nil, nil]. *)
Definition secretIDAccessorEntry (b : backend)
    (secretIDAccessor roleSecretIDPrefix : string)
    : M (option secretIDAccessorStorageEntry) :=
  if String.eqb secretIDAccessor "" then fail (errors_New "missing secretIDAccessor")
  else
    match Salt b with
    | Err err => fail err
    | Ok SaltID =>
        let accessorPrefix :=
          if String.eqb roleSecretIDPrefix secretIDLocalPrefix
          then secretIDAccessorLocalPrefix else secretIDAccessorPrefix in
        let entryIndex := accessorPrefix +:+ SaltID secretIDAccessor in
        let accessorLock := secretIDAccessorLock secretIDAccessor in
        lockop RLock accessorLock ;;;
        defer (log (Locking RUnlock accessorLock))
          (entry <- s_Get entryIndex ;;
           match entry with
           | None => ret None
           | Some entry =>
               match DecodeJSONAccessor entry with
               | Err err => fail err
               | Ok result0 => ret (Some result0)
               end
           end)
    end.

(** deleteSecretIDAccessorEntry deletes the storage index mapping the
    accessor to a SecretID. *)
Definition deleteSecretIDAccessorEntry (b : backend)
    (secretIDAccessor roleSecretIDPrefix : string) : M unit :=
  match Salt b with
  | Err err => fail err
  | Ok SaltID =>
      let accessorPrefix :=
        if String.eqb roleSecretIDPrefix secretIDLocalPrefix
        then secretIDAccessorLocalPrefix else secretIDAccessorPrefix in
      let entryIndex := accessorPrefix +:+ SaltID secretIDAccessor in
      let accessorLock := secretIDAccessorLock secretIDAccessor in
      lockop Lock accessorLock ;;;
      defer (log (Locking Unlock accessorLock))
        (r <- catch (s_Delete entryIndex) ;;
         match r with
         | Err err =>
             fail (fmt_Errorf "failed to delete accessor storage entry: %w" [] (Some err))
         | Ok _ => ret tt
         end)
  end.

End AccessorIndex.

(** ** Observing locks and storage calls *)

Definition lockId_eqb (a b : lockId) : bool :=
  match a, b with
  | secretIDLock x, secretIDLock y => String.eqb x y
  | secretIDAccessorLock x, secretIDAccessorLock y => String.eqb x y
  | secretIDListingLock, secretIDListingLock => true
  | _, _ => false
  end.

(** The locks held after the events [t], innermost first, when [held] were
    held before; [None] when [t] releases a lock that is not the innermost
    one held, or releases it in the other mode.  An entry is the operation
    that took the lock, [RLock] or [Lock]. *)
Fixpoint locksHeld (t : list event) (held : list (lockOp * lockId))
    : option (list (lockOp * lockId)) :=
  match t with
  | [] => Some held
  | Storage _ _ :: t' => locksHeld t' held
  | Locking RLock l :: t' => locksHeld t' ((RLock, l) :: held)
  | Locking Lock l :: t' => locksHeld t' ((Lock, l) :: held)
  | Locking RUnlock l :: t' =>
      match held with
      | (RLock, l') :: held' => if lockId_eqb l l' then locksHeld t' held' else None
      | _ => None
      end
  | Locking Unlock l :: t' =>
      match held with
      | (Lock, l') :: held' => if lockId_eqb l l' then locksHeld t' held' else None
      | _ => None
      end
  end.

(** The storage calls among the events, with their outcome. *)
Definition storageCalls (t : list event) : list (call * option error) :=
  omap (fun e => match e with Storage c o => Some (c, o) | Locking _ _ => None end) t.

(** A character of a hexadecimal digest. *)
Definition isHexDigit (c : ascii) : bool :=
  existsb (Ascii.eqb c) (list_ascii_of_string "0123456789abcdef").

Definition isByte (b : Z) : Prop := (0 <= b < 256)%Z.

(** The storage calls a registration may make for the SecretID with HMAC
    [secretIDHMAC] stored at [entryIndex]: reads and writes of the entry at
    that key, and the write of an accessor index entry naming that HMAC. *)
Definition registrationCall (entryIndex secretIDHMAC : string) (c : call) : Prop :=
  match c with
  | Get key => key = entryIndex
  | Put key (DocSecretID _) => key = entryIndex
  | Put _ (DocAccessor a) => SecretIDHMAC a = secretIDHMAC
  | _ => False
  end.

(** ** More sample runs *)

Definition sampleRegistration : result secretIDStorageEntry * world :=
  registerSecretIDEntry (H := sampleImports) sampleBackend "role1" "secret1" "hmac-key"
    "secret_id/" oneUseEntry freshWorld.

(** Storage after SecretID "secret1" of role "role1" was registered. *)
Definition registeredWorld : world := snd sampleRegistration.

Definition registeredEntry : secretIDStorageEntry :=
  setAccessor "uuid-0001" (setTimes 1000 1000 0 oneUseEntry).

Definition sampleAccessorCreation : result secretIDStorageEntry * world :=
  createSecretIDAccessorEntry (H := sampleImports) sampleBackend oneUseEntry
    (digestOf "hmac-key" "secret1") "secret_id/" freshWorld.


(** The role is bound to a block and a bare address, the SecretID to one
    address with its mask. *)
Definition sampleHeap : heap :=
  <[0%nat := ["10.0.0.1/32"]]> (<[1%nat := ["10.0.0.0/24"; "10.1.1.1"]]> ∅).

Definition legacyRead : result (option secretIDStorageEntry) * world :=
  nonLockedSecretIDStorageEntry (H := sampleImports) "secret_id/"
    (digestOf "hmac-key" "role1") (digestOf "hmac-key" "secret1") legacyWorld.


(** * Properties *)

Example sha256_abc :
  Sha256.EncodeToString (Sha256.sum256 (Sha256.bytes_of_string "abc"))
  = "ba7816bf8f01cfea414140de5dae2223b00361a396177a9cb410ff61f20015ad".
Proof. vm_compute. reflexivity. Qed.

Example sha256_empty :
  Sha256.EncodeToString (Sha256.sum256 [])
  = "e3b0c44298fc1c149afbf4c8996fb92427ae41e4649b934ca495991b7852b855".
Proof. vm_compute. reflexivity. Qed.

Example hmac_fox :
  createHMAC "key" "The quick brown fox jumps over the lazy dog"
  = Ok "f7bc83f430538424b13298e6aa6fb143ef4d59a14946175997479dbc2d1a3cd8".
Proof. vm_compute. reflexivity. Qed.

(** ** The keyed digest *)

Lemma EncodeToString_length (bs : list Z) :
  String.length (Sha256.EncodeToString bs) = (2 * List.length bs)%nat.
Proof.
  induction bs as [|b bs IH]; simpl; [reflexivity|].
  rewrite IH. lia.
Qed.

Lemma compress_length (h block : list Z) :
  List.length h = 8%nat -> List.length (Sha256.compress h block) = 8%nat.
Proof.
  intros Hh. unfold Sha256.compress.
  rewrite List.length_map, List.length_combine, Hh. reflexivity.
Qed.

Lemma fold_compress_length (blocks : list (list Z)) (h : list Z) :
  List.length h = 8%nat ->
  List.length (fold_left Sha256.compress blocks h) = 8%nat.
Proof.
  revert h. induction blocks as [|b blocks IH]; intros h Hh; simpl; [exact Hh|].
  apply IH, compress_length, Hh.
Qed.

Lemma concat_be_bytes_length (ws : list Z) :
  List.length (List.concat (List.map (Sha256.be_bytes 4) ws)) = (4 * List.length ws)%nat.
Proof.
  induction ws as [|x ws IH]; [reflexivity|].
  cbn [List.map List.concat]. rewrite List.length_app, IH. simpl. lia.
Qed.

Lemma sum256_length (msg : list Z) : List.length (Sha256.sum256 msg) = 32%nat.
Proof.
  unfold Sha256.sum256. rewrite concat_be_bytes_length, fold_compress_length; reflexivity.
Qed.

Lemma createHMAC_Ok_length (key value digest : string) :
  createHMAC key value = Ok digest -> String.length digest = 64%nat.
Proof.
  unfold createHMAC.
  destruct (String.eqb key ""); [discriminate|].
  destruct (Z.of_nat (String.length value) >? maxHmacInputLength)%Z; [discriminate|].
  intros [= <-]. rewrite EncodeToString_length.
  unfold Sha256.hmac. rewrite sum256_length. reflexivity.
Qed.

Lemma createHMAC_Ok_nonempty (key value digest : string) :
  createHMAC key value = Ok digest -> digest <> "".
Proof.
  intros Hd%createHMAC_Ok_length ->. discriminate.
Qed.

(** C4. createHMAC fails exactly when the key is empty or the value is longer
    than 4096 bytes (with "invalid HMAC key", respectively "value is longer
    than maximum of 4096 bytes"); on every other pair it returns a digest of
    64 hexadecimal characters, and the same pair always gives the same
    digest. *)
Theorem createHMAC_fails_iff (key value : string) :
  ((exists e, createHMAC key value = Err e)
     <-> (key = "" \/ (4096 < Z.of_nat (String.length value))%Z))
  /\ (key = "" -> createHMAC key value = Err (errors_New "invalid HMAC key"))
  /\ (key <> "" -> (4096 < Z.of_nat (String.length value))%Z ->
      createHMAC key value
      = Err (fmt_Errorf "value is longer than maximum of %d bytes" [ArgInt 4096] None))
  /\ (key <> "" -> (Z.of_nat (String.length value) <= 4096)%Z ->
      exists digest,
        createHMAC key value = Ok digest
        /\ String.length digest = 64%nat
        /\ forall d1 d2, createHMAC key value = Ok d1 ->
                         createHMAC key value = Ok d2 -> d1 = d2).
Proof.
  unfold createHMAC, maxHmacInputLength.
  destruct (String.eqb_spec key "") as [Hk|Hk];
    destruct (Z.gtb_spec (Z.of_nat (String.length value)) 4096) as [Hv|Hv].
  - repeat split; try tauto; try lia; eauto.
  - repeat split; try tauto; try lia; eauto.
  - repeat split; try tauto; try lia; eauto.
  - split; [|split; [|split]]; try tauto; try lia.
    + split; [intros [e He]; discriminate | intros [?|?]; [tauto | lia]].
    + intros _ _. eexists. split; [reflexivity|]. split.
      * rewrite EncodeToString_length. unfold Sha256.hmac.
        rewrite sum256_length. reflexivity.
      * intros d1 d2 [= <-] [= <-]. reflexivity.
Qed.

Lemma createHMAC_fails_iff_witness :
  createHMAC "" "value" = Err (errors_New "invalid HMAC key")
  /\ createHMAC "key" (String.concat "" (repeat "0123456789abcdef" 257))
     = Err (fmt_Errorf "value is longer than maximum of %d bytes" [ArgInt 4096] None)
  /\ exists digest,
       createHMAC "key" (String.concat "" (repeat "0123456789abcdef" 256)) = Ok digest
       /\ String.length digest = 64%nat.
Proof.
  split; [|split].
  - apply (proj1 (proj2 (createHMAC_fails_iff "" "value"))). reflexivity.
  - apply (proj1 (proj2 (proj2
             (createHMAC_fails_iff "key" (String.concat "" (repeat "0123456789abcdef" 257)))))).
    + discriminate.
    + vm_compute. reflexivity.
  - destruct (proj2 (proj2 (proj2
                (createHMAC_fails_iff "key" (String.concat "" (repeat "0123456789abcdef" 256))))))
      as [digest [Hd [Hl _]]].
    + discriminate.
    + vm_compute. discriminate.
    + exists digest. split; assumption.
Defined.

(** ** The TTL policy *)

(** C3. deriveSecretIDTTL returns the system's max lease TTL when the
    requested TTL is negative or above that max, and the requested TTL
    otherwise; a requested TTL of 0 under a positive max stays 0. *)
Theorem deriveSecretIDTTL_clamps (b : backend) (secretIDTTL : Z) :
  ((secretIDTTL < 0 \/ MaxLeaseTTL b < secretIDTTL)%Z ->
     deriveSecretIDTTL b secretIDTTL = MaxLeaseTTL b)
  /\ (~ (secretIDTTL < 0 \/ MaxLeaseTTL b < secretIDTTL)%Z ->
      deriveSecretIDTTL b secretIDTTL = secretIDTTL)
  /\ ((0 < MaxLeaseTTL b)%Z -> deriveSecretIDTTL b 0 = 0%Z).
Proof.
  unfold deriveSecretIDTTL.
  split; [|split].
  - intros Hc.
    destruct (Z.ltb_spec secretIDTTL 0), (Z.gtb_spec secretIDTTL (MaxLeaseTTL b));
      simpl; lia.
  - intros Hc.
    destruct (Z.ltb_spec secretIDTTL 0), (Z.gtb_spec secretIDTTL (MaxLeaseTTL b));
      simpl; lia.
  - intros Hm.
    destruct (Z.ltb_spec 0 0), (Z.gtb_spec 0 (MaxLeaseTTL b)); simpl; lia.
Qed.

Lemma deriveSecretIDTTL_clamps_witness :
  let b := {| MaxLeaseTTL := 10; Salt := Ok (fun id => id) |} in
  deriveSecretIDTTL b (-1) = 10%Z
  /\ deriveSecretIDTTL b 5 = 5%Z
  /\ deriveSecretIDTTL b 20 = 10%Z
  /\ deriveSecretIDTTL b 0 = 0%Z.
Proof.
  intros b. split; [|split; [|split]].
  - apply (proj1 (deriveSecretIDTTL_clamps b (-1))). simpl. lia.
  - apply (proj1 (proj2 (deriveSecretIDTTL_clamps b 5))). simpl. lia.
  - apply (proj1 (deriveSecretIDTTL_clamps b 20)). simpl. lia.
  - apply (proj2 (proj2 (deriveSecretIDTTL_clamps b 0))). simpl. lia.
Defined.

(** ** CIDR subset validation *)

Lemma Contains_String (c : ascii) (s substr : string) :
  Contains (String c s) substr
  = if String.prefix substr (String c s) then true else Contains s substr.
Proof. reflexivity. Qed.

Lemma Contains_app_mask (block : string) : Contains (block +:+ "/32") "/" = true.
Proof.
  induction block as [|c block IH]; [reflexivity|].
  change (String c block +:+ "/32") with (String c (block +:+ "/32")).
  rewrite Contains_String, IH. destruct (String.prefix _ _); reflexivity.
Qed.

Lemma withMask_Contains (block : string) : Contains (withMask block) "/" = true.
Proof.
  unfold withMask. destruct (Contains block "/") eqn:Hc; [exact Hc|].
  apply Contains_app_mask.
Qed.

Lemma withMask_idem (block : string) : withMask (withMask block) = withMask block.
Proof. unfold withMask at 1. rewrite withMask_Contains. reflexivity. Qed.

Lemma elems_insert (h : heap) (a b : nat) (l : list string) :
  elems (<[a := l]> h) b = if decide (a = b) then l else elems h b.
Proof.
  unfold elems. destruct (decide (a = b)) as [->|Hne].
  - rewrite lookup_insert_eq. reflexivity.
  - rewrite lookup_insert_ne by exact Hne. reflexivity.
Qed.

Lemma elems_nonempty_lookup (h : heap) (a : nat) :
  elems h a <> [] -> h !! a = Some (elems h a).
Proof.
  unfold elems. destruct (h !! a) as [l|]; simpl; [reflexivity|congruence].
Qed.

(** One turn of the loop writes [withMask block] at the index it read
    [block] from. *)
Lemma appendMask_cons (role i : nat) (rest : list nat) (h : heap)
    (l : list string) (block : string) :
  h !! role = Some l -> l !! i = Some block ->
  appendMask role (i :: rest) h
  = appendMask role rest (<[role := <[i := withMask block]> l]> h).
Proof.
  intros Hl Hi.
  assert (He : elems h role = l) by (unfold elems; rewrite Hl; reflexivity).
  cbn [appendMask]. rewrite He, Hi. unfold withMask.
  destruct (Contains block "/"); cbn [negb]; [|reflexivity].
  rewrite (list_insert_id l i block Hi), (insert_id h role l Hl). reflexivity.
Qed.

Lemma appendMask_seq (role : nat) (l0 : list string) (n k : nat) (h : heap) :
  h !! role = Some ((withMask <$> take k l0) ++ drop k l0) ->
  (k + n <= List.length l0)%nat ->
  appendMask role (seq k n) h
  = <[role := (withMask <$> take (k + n) l0) ++ drop (k + n) l0]> h.
Proof.
  revert k h. induction n as [|n IH]; intros k h Hl Hlen.
  - cbn [seq appendMask]. rewrite Nat.add_0_r. symmetry. apply insert_id, Hl.
  - destruct (lookup_lt_is_Some_2 l0 k) as [block Hb]; [lia|].
    assert (Hk : List.length (withMask <$> take k l0) = k).
    { rewrite length_fmap, length_take. lia. }
    cbn [seq].
    rewrite (appendMask_cons role k (seq (S k) n) h _ block Hl).
    2:{ rewrite lookup_app_r by lia. rewrite Hk, Nat.sub_diag, lookup_drop.
        rewrite Nat.add_0_r. exact Hb. }
    assert (Hstep : <[k := withMask block]> ((withMask <$> take k l0) ++ drop k l0)
                    = (withMask <$> take (S k) l0) ++ drop (S k) l0).
    { rewrite (take_S_r l0 k block Hb), fmap_app, <- app_assoc.
      rewrite (drop_S l0 block k Hb).
      replace k with (List.length (withMask <$> take k l0) + 0)%nat at 1 by lia.
      rewrite insert_app_r. reflexivity. }
    rewrite Hstep, IH.
    + rewrite insert_insert_eq. replace (S k + n)%nat with (k + S n)%nat by lia.
      reflexivity.
    + apply lookup_insert_eq.
    + lia.
Qed.

(** The whole loop: the role's array ends up holding [withMask] of each of
    its elements, and no other array changes. *)
Lemma appendMask_all (role : nat) (h : heap) (l : list string) :
  h !! role = Some l ->
  appendMask role (seq 0 (List.length l)) h = <[role := withMask <$> l]> h.
Proof.
  intros Hl.
  rewrite (appendMask_seq role l (List.length l) 0 h).
  - cbn [Nat.add]. rewrite firstn_all, drop_all, app_nil_r. reflexivity.
  - cbn [take fmap list_fmap drop app]. rewrite drop_0. exact Hl.
  - lia.
Qed.

Section CIDR.
Context `{Imports}.

(** What [verifyCIDRRoleSecretIDSubset] does when both slices hold
    something. *)
Lemma verifyCIDRRoleSecretIDSubset_nonempty (secretIDCIDRs roleBoundCIDRList : nat) (h : heap) :
  elems h secretIDCIDRs <> [] -> elems h roleBoundCIDRList <> [] ->
  let h' := <[roleBoundCIDRList := withMask <$> elems h roleBoundCIDRList]> h in
  verifyCIDRRoleSecretIDSubset secretIDCIDRs roleBoundCIDRList h
  = (subsetFailure (elems h' roleBoundCIDRList) (elems h' secretIDCIDRs)
       (fst (SubsetBlocks (elems h' roleBoundCIDRList) (elems h' secretIDCIDRs)))
       (snd (SubsetBlocks (elems h' roleBoundCIDRList) (elems h' secretIDCIDRs))), h').
Proof.
  intros Hs Hr h'. unfold verifyCIDRRoleSecretIDSubset.
  destruct (elems h secretIDCIDRs) as [|s ss] eqn:Es; [congruence|].
  destruct (elems h roleBoundCIDRList) as [|r rs] eqn:Er; [congruence|].
  cbn [List.length Nat.eqb negb].
  change (S (List.length rs)) with (List.length (r :: rs)).
  rewrite (appendMask_all roleBoundCIDRList h (r :: rs)).
  2:{ rewrite <- Er. apply elems_nonempty_lookup. congruence. }
  fold h'. destruct (SubsetBlocks _ _) as [subset err]. reflexivity.
Qed.

End CIDR.

Section CIDRClaims.
Context `{Imports}.

(** C6 (amended).  When both lists hold something and are distinct slices,
    verifyCIDRRoleSecretIDSubset gives a "/32" mask to every bare address of
    the role's bound CIDR list, and only of that list, before the containment
    check: the check receives the role's blocks all with a mask and the
    secret ID's blocks as the caller passed them, and its verdict decides the
    result. *)
Theorem verifyCIDRRoleSecretIDSubset_masks_role_only
    (secretIDCIDRs roleBoundCIDRList : nat) (h : heap) :
  secretIDCIDRs <> roleBoundCIDRList ->
  elems h secretIDCIDRs <> [] -> elems h roleBoundCIDRList <> [] ->
  let roleBlocks := withMask <$> elems h roleBoundCIDRList in
  (forall block, In block roleBlocks -> Contains block "/" = true)
  /\ fst (verifyCIDRRoleSecretIDSubset secretIDCIDRs roleBoundCIDRList h)
     = subsetFailure roleBlocks (elems h secretIDCIDRs)
         (fst (SubsetBlocks roleBlocks (elems h secretIDCIDRs)))
         (snd (SubsetBlocks roleBlocks (elems h secretIDCIDRs))).
Proof.
  intros Hne Hs Hr roleBlocks. split.
  - intros block [b [<- _]]%in_map_iff. apply withMask_Contains.
  - rewrite verifyCIDRRoleSecretIDSubset_nonempty by assumption.
    cbn [fst]. rewrite !elems_insert.
    destruct (decide (roleBoundCIDRList = roleBoundCIDRList)); [|congruence].
    destruct (decide (roleBoundCIDRList = secretIDCIDRs)); [congruence|].
    reflexivity.
Qed.

(** C7. verifyCIDRRoleSecretIDSubset returns nil, and changes nothing,
    whenever the role's list or the secret ID's list is empty; when both hold
    something and the containment check answers "not a subset", it returns
    the error whose arguments are the two lists as the check received
    them. *)
Theorem verifyCIDRRoleSecretIDSubset_empty_or_fails
    (secretIDCIDRs roleBoundCIDRList : nat) (h : heap) :
  (elems h roleBoundCIDRList = [] \/ elems h secretIDCIDRs = [] ->
   verifyCIDRRoleSecretIDSubset secretIDCIDRs roleBoundCIDRList h = (None, h))
  /\ (elems h roleBoundCIDRList <> [] -> elems h secretIDCIDRs <> [] ->
      let h' := <[roleBoundCIDRList := withMask <$> elems h roleBoundCIDRList]> h in
      let roleBlocks := elems h' roleBoundCIDRList in
      let secretBlocks := elems h' secretIDCIDRs in
      fst (SubsetBlocks roleBlocks secretBlocks) = false ->
      fst (verifyCIDRRoleSecretIDSubset secretIDCIDRs roleBoundCIDRList h)
      = Some (fmt_Errorf
                "failed to verify subset relationship between CIDR blocks on the role %q and CIDR blocks on the secret ID %q: %w"
                [ArgStrings roleBlocks; ArgStrings secretBlocks]
                (snd (SubsetBlocks roleBlocks secretBlocks)))).
Proof.
  split.
  - intros Hempty. unfold verifyCIDRRoleSecretIDSubset.
    destruct (elems h secretIDCIDRs) as [|s ss]; [reflexivity|].
    destruct (elems h roleBoundCIDRList) as [|r rs]; [reflexivity|].
    destruct Hempty; discriminate.
  - intros Hr Hs h' roleBlocks secretBlocks Hnot.
    rewrite verifyCIDRRoleSecretIDSubset_nonempty by assumption.
    cbn [fst]. fold h'. fold roleBlocks. fold secretBlocks.
    rewrite Hnot. reflexivity.
Qed.

(** C10. When both lists hold something, verifyCIDRRoleSecretIDSubset
    writes into the caller's roleBoundCIDRList: afterwards the slice has the
    same length, every element that had no "/" is that element followed by
    "/32", every other element is as it was, and no other slice has
    changed. *)
Theorem verifyCIDRRoleSecretIDSubset_writes_role_slice
    (secretIDCIDRs roleBoundCIDRList : nat) (h : heap) :
  elems h secretIDCIDRs <> [] -> elems h roleBoundCIDRList <> [] ->
  let h' := snd (verifyCIDRRoleSecretIDSubset secretIDCIDRs roleBoundCIDRList h) in
  List.length (elems h' roleBoundCIDRList) = List.length (elems h roleBoundCIDRList)
  /\ (forall (i : nat) (block : string),
        elems h roleBoundCIDRList !! i = Some block ->
        elems h' roleBoundCIDRList !! i
        = Some (if Contains block "/" then block else block +:+ "/32"))
  /\ (forall a : nat, a <> roleBoundCIDRList -> h' !! a = h !! a).
Proof.
  intros Hs Hr h'. subst h'.
  rewrite verifyCIDRRoleSecretIDSubset_nonempty by assumption.
  cbn [snd]. rewrite elems_insert.
  destruct (decide (roleBoundCIDRList = roleBoundCIDRList)); [|congruence].
  split; [|split].
  - apply length_fmap.
  - intros i block Hi. rewrite list_lookup_fmap, Hi. reflexivity.
  - intros a Ha. apply lookup_insert_ne. congruence.
Qed.

End CIDRClaims.

Lemma verifyCIDRRoleSecretIDSubset_masks_role_only_witness :
  let h : heap := <[0%nat := ["10.0.0.1"]]> (<[1%nat := ["10.0.0.0/24"; "10.1.1.1"]]> ∅) in
  fst (verifyCIDRRoleSecretIDSubset (H := sampleImports) 0 1 h)
  = subsetFailure ["10.0.0.0/24"; "10.1.1.1/32"] ["10.0.0.1"]
      (fst (ipv4SubsetBlocks ["10.0.0.0/24"; "10.1.1.1/32"] ["10.0.0.1"]))
      (snd (ipv4SubsetBlocks ["10.0.0.0/24"; "10.1.1.1/32"] ["10.0.0.1"])).
Proof.
  intros h.
  refine (proj2 (verifyCIDRRoleSecretIDSubset_masks_role_only (H := sampleImports) 0 1 h _ _ _)).
  - discriminate.
  - vm_compute. discriminate.
  - vm_compute. discriminate.
Defined.

Lemma verifyCIDRRoleSecretIDSubset_empty_or_fails_witness :
  let h : heap := <[0%nat := ["10.0.0.1/32"]]> (<[1%nat := ["192.168.0.0/24"]]> ∅) in
  verifyCIDRRoleSecretIDSubset (H := sampleImports) 0 2 h = (None, h)
  /\ verifyCIDRRoleSecretIDSubset (H := sampleImports) 2 1 h = (None, h)
  /\ fst (verifyCIDRRoleSecretIDSubset (H := sampleImports) 0 1 h)
     = Some (fmt_Errorf
               "failed to verify subset relationship between CIDR blocks on the role %q and CIDR blocks on the secret ID %q: %w"
               [ArgStrings ["192.168.0.0/24"]; ArgStrings ["10.0.0.1/32"]] None).
Proof.
  intros h. split; [|split].
  - apply (proj1 (verifyCIDRRoleSecretIDSubset_empty_or_fails (H := sampleImports) 0 2 h)).
    left. reflexivity.
  - apply (proj1 (verifyCIDRRoleSecretIDSubset_empty_or_fails (H := sampleImports) 2 1 h)).
    right. reflexivity.
  - refine (proj2 (verifyCIDRRoleSecretIDSubset_empty_or_fails (H := sampleImports) 0 1 h) _ _ _).
    + vm_compute. discriminate.
    + vm_compute. discriminate.
    + vm_compute. reflexivity.
Defined.

Lemma verifyCIDRRoleSecretIDSubset_writes_role_slice_witness :
  let h : heap := <[0%nat := ["10.0.0.1/32"]]> (<[1%nat := ["10.0.0.0/24"; "10.1.1.1"]]> ∅) in
  let h' := snd (verifyCIDRRoleSecretIDSubset (H := sampleImports) 0 1 h) in
  elems h' 1 !! 0%nat = Some "10.0.0.0/24"
  /\ elems h' 1 !! 1%nat = Some "10.1.1.1/32"
  /\ h' !! 0%nat = h !! 0%nat.
Proof.
  intros h h'.
  destruct (verifyCIDRRoleSecretIDSubset_writes_role_slice (H := sampleImports) 0 1 h)
    as [_ [Helem Hother]].
  - vm_compute. discriminate.
  - vm_compute. discriminate.
  - split; [|split].
    + apply (Helem 0%nat "10.0.0.0/24"). reflexivity.
    + apply (Helem 1%nat "10.1.1.1"). reflexivity.
    + apply Hother. discriminate.
Defined.

(** C6 as stated fails on the specification's own example: the secret ID's
    bare address reaches the containment check without a mask, so the call
    fails where masking both lists would let it pass. *)
Lemma verifyCIDRRoleSecretIDSubset_bare_secret_counterexample :
  let h : heap := <[0%nat := ["10.0.0.1"]]> (<[1%nat := ["10.0.0.0/24"]]> ∅) in
  elems h 0 = ["10.0.0.1"]
  /\ elems h 1 = ["10.0.0.0/24"]
  /\ verifySubset_bothMasked (H := sampleImports) ["10.0.0.1"] ["10.0.0.0/24"] = None
  /\ fst (verifyCIDRRoleSecretIDSubset (H := sampleImports) 0 1 h)
     = Some (fmt_Errorf
               "failed to verify subset relationship between CIDR blocks on the role %q and CIDR blocks on the secret ID %q: %w"
               [ArgStrings ["10.0.0.0/24"]; ArgStrings ["10.0.0.1"]]
               (Some (errors_New "invalid CIDR address"))).
Proof. vm_compute. repeat split. Qed.

(** ** Running against storage *)

Lemma drop_length_app (t new : list event) : drop (List.length t) (t ++ new) = new.
Proof. apply drop_app_length. Qed.

(** Brings a trace built by successive [log]s to the form [t ++ new]. *)
Ltac flatten_trace :=
  repeat rewrite <- app_assoc; cbn [app].

Ltac since_trace :=
  unfold since; cbn [trace log setStore setFaults setUuids];
  flatten_trace; try rewrite drop_length_app; try rewrite drop_all.

(** Case analysis on everything a run branches on: the scrutinee of an
    innermost [match] of the goal is replaced by each of its values. *)
Ltac run_unfold :=
  unfold bind, ret, fail, catch, defer, lockop, interfere, GenerateUUID,
    s_Get, s_Put, s_Delete, s_List, storageCall, nextFault.

Ltac run_simpl :=
  cbn [fst snd store faults uuids clock race trace log setStore setFaults setUuids hd tl].

Ltac destruct_innermost x :=
  lazymatch x with
  | context [match ?y with _ => _ end] => destruct_innermost y
  | _ => destruct x eqn:?
  end.

Ltac rewrite_known :=
  repeat match goal with
         | E : ?l = _ |- context [match ?l with _ => _ end] => rewrite E; run_simpl
         | E : faults ?w = _ |- context [faults ?w] => rewrite E; run_simpl
         end.

Ltac run_cases :=
  run_unfold; run_simpl; rewrite_known; run_simpl;
  repeat (match goal with
          | |- context [match ?x with _ => _ end] => destruct_innermost x
          end; run_simpl; rewrite_known; run_simpl).

Lemma upgrade_spec (e0 : secretIDStorageEntry) :
  let n := SecretIDNumUses e0 in
  let d := SecretIDNumUsesDeprecated e0 in
  ((d = 0 \/ d = n)%Z -> upgrade e0 = (e0, false))
  /\ (d <> 0%Z -> d <> n ->
      snd (upgrade e0) = true
      /\ fst (upgrade e0)
         = setNumUsesDeprecated (smallerNonZero n d) (setNumUses (smallerNonZero n d) e0)).
Proof.
  intros n d. subst n d. unfold upgrade, smallerNonZero, setNumUses, setNumUsesDeprecated.
  destruct e0 as [acc n ttl ct et ut md cl tb d]. cbn.
  repeat (match goal with
          | |- context [(?a =? ?b)%Z] => destruct (Z.eqb_spec a b)
          | |- context [(?a <? ?b)%Z] => destruct (Z.ltb_spec a b)
          end; cbn);
    (split; [intros [?|?]|intros ? ?; split]);
    try reflexivity; try lia; f_equal; lia.
Qed.
Section Registry.
Context `{Imports}.

Lemma upgrade_needed (e0 : secretIDStorageEntry) :
  SecretIDNumUsesDeprecated e0 <> 0%Z ->
  SecretIDNumUsesDeprecated e0 <> SecretIDNumUses e0 ->
  let m := smallerNonZero (SecretIDNumUses e0) (SecretIDNumUsesDeprecated e0) in
  upgrade e0 = (setNumUsesDeprecated m (setNumUses m e0), true).
Proof.
  intros Hz Hne m.
  destruct (proj2 (upgrade_spec e0) Hz Hne) as [Hp Hu].
  destruct (upgrade e0) as [e1 p]. cbn in Hp, Hu. subst. reflexivity.
Qed.

(** C8. Reading through nonLockedSecretIDStorageEntry an entry whose
    deprecated use count is non-zero and differs from the canonical one
    returns the entry with both counts equal to the smaller non-zero of the
    two stored values (the deprecated one when the canonical is zero), and
    the same call has written that entry back at its key, right after the
    read; with a non-empty prefix and HMACs and a storage that serves the
    read and the write, the call does return. *)
Theorem nonLockedSecretIDStorageEntry_reconciles
    (roleSecretIDPrefix roleNameHMAC secretIDHMAC : string) (w : world)
    (d : document) (e0 : secretIDStorageEntry) :
  let key := entryIndexOf roleSecretIDPrefix roleNameHMAC secretIDHMAC in
  store w !! key = Some d ->
  decodeSecretIDStorageEntry d = Ok e0 ->
  SecretIDNumUsesDeprecated e0 <> 0%Z ->
  SecretIDNumUsesDeprecated e0 <> SecretIDNumUses e0 ->
  let m := smallerNonZero (SecretIDNumUses e0) (SecretIDNumUsesDeprecated e0) in
  let e' := setNumUsesDeprecated m (setNumUses m e0) in
  (SecretIDNumUses e' = m /\ SecretIDNumUsesDeprecated e' = m)
  /\ (SecretIDNumUses e0 = 0%Z -> m = SecretIDNumUsesDeprecated e0)
  /\ (SecretIDNumUses e0 <> 0%Z ->
      m = Z.min (SecretIDNumUses e0) (SecretIDNumUsesDeprecated e0))
  /\ (forall r w',
        nonLockedSecretIDStorageEntry roleSecretIDPrefix roleNameHMAC secretIDHMAC w
        = (Ok r, w') ->
        r = Some e'
        /\ store w' = <[key := DocSecretID e']> (store w)
        /\ since w w' = [Storage (Get key) None; Storage (Put key (DocSecretID e')) None])
  /\ (secretIDHMAC <> "" -> roleNameHMAC <> "" -> roleSecretIDPrefix <> "" ->
      Forall (fun f => f = None) (take 2 (faults w)) ->
      exists w',
        nonLockedSecretIDStorageEntry roleSecretIDPrefix roleNameHMAC secretIDHMAC w
        = (Ok (Some e'), w')).
Proof.
  intros key Hd He0 Hz Hne m e'.
  pose proof (upgrade_needed e0 Hz Hne) as Hup. cbn zeta in Hup. fold m in Hup. fold e' in Hup.
  split; [split; reflexivity|].
  split.
  { intros Hn. subst m. unfold smallerNonZero. rewrite Hn. reflexivity. }
  split.
  { intros Hn. subst m. unfold smallerNonZero.
    destruct (Z.eqb_spec (SecretIDNumUses e0) 0); [contradiction|].
    destruct (Z.eqb_spec (SecretIDNumUsesDeprecated e0) 0); [contradiction|].
    reflexivity. }
  split.
  - intros r w'.
    unfold nonLockedSecretIDStorageEntry, nonLockedSetSecretIDStorageEntry.
    fold key. run_cases; intros [= <- <-]; (split; [reflexivity|]);
      (split; [reflexivity|]); since_trace; reflexivity.
  - intros Hs Hr Hp Hf.
    unfold nonLockedSecretIDStorageEntry, nonLockedSetSecretIDStorageEntry.
    fold key.
    apply String.eqb_neq in Hs, Hr, Hp. rewrite Hs, Hr, Hp.
    destruct (faults w) as [|f1 [|f2 fs]] eqn:Hfw; cbn [take] in Hf;
      repeat match goal with
             | F : Forall _ (_ :: _) |- _ => inversion F; subst; clear F
             end;
      run_cases; eexists; reflexivity.
Qed.

End Registry.
Section Registration.
Context `{Imports}.

(** Closes a leaf of the case analysis of a run: the run's outcome is known,
    what is left is to read the property off it. *)
Ltac no_such_event :=
  let Hin := fresh "Hin" in
  intros Hin; cbn [In] in Hin;
  repeat (destruct Hin as [Hin|Hin]; [try discriminate Hin|]);
  try contradiction.

(** C2. In every run of registerSecretIDEntry that succeeds, storage is
    called four times, in this order: the two reads of the entry, the write
    of the accessor index entry, the write of the credential entry; both
    writes succeed and the accessor's comes first.  In every run in which the
    write of the accessor index entry fails, the call returns that failure
    and never calls storage to write a credential entry. *)
Theorem registerSecretIDEntry_accessor_before_entry (b : backend)
    (roleName secretID hmacKey roleSecretIDPrefix : string)
    (secretEntry : secretIDStorageEntry) (w : world) :
  forall r w',
    registerSecretIDEntry b roleName secretID hmacKey roleSecretIDPrefix secretEntry w
    = (r, w') ->
    (forall e, r = Ok e ->
       exists secretIDHMAC roleNameHMAC accessorIndex,
         createHMAC hmacKey secretID = Ok secretIDHMAC
         /\ createHMAC hmacKey roleName = Ok roleNameHMAC
         /\ let entryIndex := entryIndexOf roleSecretIDPrefix roleNameHMAC secretIDHMAC in
            since w w'
            = [ Locking RLock (secretIDLock secretIDHMAC);
                Storage (Get entryIndex) None;
                Locking RUnlock (secretIDLock secretIDHMAC);
                Locking Lock (secretIDLock secretIDHMAC);
                Storage (Get entryIndex) None;
                Locking Lock (secretIDAccessorLock (SecretIDAccessor e));
                Storage (Put accessorIndex (DocAccessor {| SecretIDHMAC := secretIDHMAC |})) None;
                Locking Unlock (secretIDAccessorLock (SecretIDAccessor e));
                Storage (Put entryIndex (DocSecretID e)) None;
                Locking Unlock (secretIDLock secretIDHMAC) ])
    /\ (forall accessorIndex a err,
          In (Storage (Put accessorIndex (DocAccessor a)) (Some err)) (since w w') ->
          r = Err (fmt_Errorf "failed to persist accessor index entry: %w" [] (Some err))
          /\ forall entryIndex e outcome,
               ~ In (Storage (Put entryIndex (DocSecretID e)) outcome) (since w w')).
Proof.
  intros r w'.
  unfold registerSecretIDEntry, nonLockedSecretIDStorageEntry,
    createSecretIDAccessorEntry, nonLockedSetSecretIDStorageEntry.
  run_cases.
  all: intros [= <- <-]; since_trace; (split; [intros e0' [= <-] | intros ai' a' err']).
  all: try no_such_event.
  all: try (eexists _, _, _; split; [reflexivity|]; split; reflexivity).
  all: injection Hin as <- <- <-; split; [reflexivity|]; intros entryIndex e1 outcome;
    no_such_event.
Qed.

(** C9. In every registration that succeeds the entry returned is the one
    stored at the SecretID's key, stamped with the time of the call.  When
    the effective TTL (deriveSecretIDTTL of the entry's SecretIDTTL) is zero,
    ExpirationTime is not assigned: the stored entry keeps the value the
    caller's entry came with, so it is the zero value whenever the caller's
    entry had the zero value.  When the effective TTL is not zero,
    ExpirationTime is the creation time plus the effective TTL. *)
Theorem registerSecretIDEntry_expiration (b : backend)
    (roleName secretID hmacKey roleSecretIDPrefix : string)
    (secretEntry : secretIDStorageEntry) (w : world) :
  forall e w',
    registerSecretIDEntry b roleName secretID hmacKey roleSecretIDPrefix secretEntry w
    = (Ok e, w') ->
    (exists secretIDHMAC roleNameHMAC,
       createHMAC hmacKey secretID = Ok secretIDHMAC
       /\ createHMAC hmacKey roleName = Ok roleNameHMAC
       /\ store w' !! entryIndexOf roleSecretIDPrefix roleNameHMAC secretIDHMAC
          = Some (DocSecretID e))
    /\ CreationTime e = clock w
    /\ (deriveSecretIDTTL b (SecretIDTTL secretEntry) = 0%Z ->
        ExpirationTime e = ExpirationTime secretEntry)
    /\ (deriveSecretIDTTL b (SecretIDTTL secretEntry) = 0%Z ->
        ExpirationTime secretEntry = 0%Z -> ExpirationTime e = 0%Z)
    /\ (deriveSecretIDTTL b (SecretIDTTL secretEntry) <> 0%Z ->
        ExpirationTime e
        = (CreationTime e + deriveSecretIDTTL b (SecretIDTTL secretEntry))%Z).
Proof.
  intros e w'.
  unfold registerSecretIDEntry, nonLockedSecretIDStorageEntry,
    createSecretIDAccessorEntry, nonLockedSetSecretIDStorageEntry.
  run_cases.
  all: intros [= <- <-].
  all: repeat match goal with
              | E : negb _ = true |- _ => apply negb_true_iff in E
              | E : negb _ = false |- _ => apply negb_false_iff in E
              | E : (_ =? _)%Z = true |- _ => apply Z.eqb_eq in E
              | E : (_ =? _)%Z = false |- _ => apply Z.eqb_neq in E
              end.
  all: (split; [eexists _, _; split; [reflexivity|]; split; [reflexivity|];
                apply lookup_insert_eq|]).
  all: cbn [CreationTime ExpirationTime setAccessor setTimes].
  all: repeat split; intros; congruence.
Qed.

(** C1 (amended).  When a credential entry is stored at the SecretID's key
    and storage serves every call, registerSecretIDEntry returns "SecretID
    is already registered": from the check under the read lock when the
    entry is there at the start, from the re-check under the write lock when
    another goroutine stored it during the lock switch.  It writes no
    accessor index entry and creates no entry.  Its only storage write is
    the upgrade of the entry found: when the entry's deprecated use count
    calls for it, the reconciled entry is put back at the same key;
    otherwise storage is not written at all. *)
Theorem registerSecretIDEntry_already_registered (b : backend)
    (roleName secretID hmacKey roleSecretIDPrefix : string)
    (secretEntry : secretIDStorageEntry) (w : world)
    (secretIDHMAC roleNameHMAC : string) (d : document) (e0 : secretIDStorageEntry) :
  createHMAC hmacKey secretID = Ok secretIDHMAC ->
  createHMAC hmacKey roleName = Ok roleNameHMAC ->
  decodeSecretIDStorageEntry d = Ok e0 ->
  roleSecretIDPrefix <> "" ->
  faults w = [] ->
  let entryIndex := entryIndexOf roleSecretIDPrefix roleNameHMAC secretIDHMAC in
  let rewrite :=
    if snd (upgrade e0)
    then [Storage (Put entryIndex (DocSecretID (fst (upgrade e0)))) None] else [] in
  let rewritten (m : gmap string document) :=
    if snd (upgrade e0) then <[entryIndex := DocSecretID (fst (upgrade e0))]> m else m in
  (store w !! entryIndex = Some d ->
   exists w',
     registerSecretIDEntry b roleName secretID hmacKey roleSecretIDPrefix secretEntry w
     = (Err (errors_New "SecretID is already registered"), w')
     /\ since w w'
        = [Locking RLock (secretIDLock secretIDHMAC); Storage (Get entryIndex) None]
          ++ rewrite ++ [Locking RUnlock (secretIDLock secretIDHMAC)]
     /\ List.filter isWrite (since w w') = rewrite
     /\ store w' = rewritten (store w))
  /\ (store w !! entryIndex = None ->
      race w (store w) !! entryIndex = Some d ->
      exists w',
        registerSecretIDEntry b roleName secretID hmacKey roleSecretIDPrefix secretEntry w
        = (Err (errors_New "SecretID is already registered"), w')
        /\ since w w'
           = [Locking RLock (secretIDLock secretIDHMAC); Storage (Get entryIndex) None;
              Locking RUnlock (secretIDLock secretIDHMAC);
              Locking Lock (secretIDLock secretIDHMAC); Storage (Get entryIndex) None]
             ++ rewrite ++ [Locking Unlock (secretIDLock secretIDHMAC)]
        /\ List.filter isWrite (since w w') = rewrite
        /\ store w' = rewritten (race w (store w))).
Proof.
  intros Hs Hr Hd Hp Hf entryIndex rewrite rewritten.
  pose proof (createHMAC_Ok_nonempty _ _ _ Hs) as Hsn.
  pose proof (createHMAC_Ok_nonempty _ _ _ Hr) as Hrn.
  apply String.eqb_neq in Hsn, Hrn, Hp.
  subst rewrite rewritten entryIndex.
  destruct (upgrade e0) as [e1 persist] eqn:Hup. cbn [fst snd].
  split; [intros Hfound | intros Habsent Hfound];
    unfold registerSecretIDEntry, nonLockedSecretIDStorageEntry,
      createSecretIDAccessorEntry, nonLockedSetSecretIDStorageEntry;
    run_cases;
    eexists; (split; [reflexivity|]); since_trace; repeat split; reflexivity.
Qed.

End Registration.

(** ** Bulk flush *)

Lemma fold_delete_None (f : string -> string) (ks : list string)
    (m : gmap string document) (key : string) :
  m !! key = None ->
  fold_left (fun m k => delete (f k) m) ks m !! key = None.
Proof.
  revert m. induction ks as [|k ks IH]; intros m Hm; cbn [fold_left]; [exact Hm|].
  apply IH. rewrite lookup_delete. destruct (decide (f k = key)); [reflexivity|exact Hm].
Qed.

Lemma fold_delete_In (f : string -> string) (ks : list string)
    (m : gmap string document) (k : string) :
  In k ks -> fold_left (fun m k => delete (f k) m) ks m !! f k = None.
Proof.
  revert m. induction ks as [|k0 ks IH]; intros m Hin; [destruct Hin|].
  cbn [fold_left]. destruct Hin as [->|Hin].
  - apply fold_delete_None, lookup_delete_eq.
  - apply IH, Hin.
Qed.

Lemma fold_delete_other (f : string -> string) (ks : list string)
    (m : gmap string document) (key : string) :
  (forall k, In k ks -> f k <> key) ->
  fold_left (fun m k => delete (f k) m) ks m !! key = m !! key.
Proof.
  revert m. induction ks as [|k0 ks IH]; intros m Hks; [reflexivity|].
  cbn [fold_left]. rewrite IH.
  - apply lookup_delete_ne, Hks. left. reflexivity.
  - intros k Hk. apply Hks. right. exact Hk.
Qed.

Lemma flushLoop_stops (roleSecretIDPrefix roleNameHMAC : string)
    (done : list string) (secretIDHMAC : string) (rest : list string)
    (err : error) (fs : list (option error)) (w : world) :
  faults w = repeat None (List.length done) ++ Some err :: fs ->
  exists w',
    flushLoop roleSecretIDPrefix roleNameHMAC (done ++ secretIDHMAC :: rest) w
    = (Err (fmt_Errorf "error deleting SecretID %q from storage: %w"
              [ArgString secretIDHMAC] (Some err)), w')
    /\ store w'
       = fold_left (fun m k => delete (entryIndexOf roleSecretIDPrefix roleNameHMAC k) m)
           done (store w)
    /\ faults w' = fs
    /\ trace w'
       = trace w
         ++ flat_map (deleted roleSecretIDPrefix roleNameHMAC) done
         ++ [ Locking Lock (secretIDLock secretIDHMAC);
              Storage (Delete (entryIndexOf roleSecretIDPrefix roleNameHMAC secretIDHMAC))
                (Some err);
              Locking Unlock (secretIDLock secretIDHMAC) ].
Proof.
  revert w. induction done as [|k done IH]; intros w Hf.
  - cbn [List.length repeat app] in Hf. cbn [app flushLoop]. run_cases.
    eexists. split; [reflexivity|]. run_simpl. cbn [fold_left flat_map app].
    repeat split; try reflexivity. flatten_trace. reflexivity.
  - cbn [List.length repeat app] in Hf. cbn [app flushLoop]. run_cases.
    match goal with
    | |- context [flushLoop _ _ _ ?w1] =>
        destruct (IH w1) as (w' & Hrun & Hstore & Hfaults & Htrace); [reflexivity|]
    end.
    exists w'. split; [exact Hrun|]. rewrite Hstore, Hfaults, Htrace.
    run_simpl. cbn [fold_left flat_map deleted app].
    repeat split; try reflexivity. flatten_trace. reflexivity.
Qed.

(** C5 (amended).  When the delete of a listed SecretID fails,
    flushRoleSecrets stops there: it returns that error, wrapped with the
    HMAC of the SecretID whose delete failed, and nothing else (the function
    returns an error, not a count); the entries listed before it have been
    deleted and stay deleted, every other key of storage is as it was, and
    no delete is attempted for the entries listed after it. *)
Theorem flushRoleSecrets_stops_at_first_error
    (roleName hmacKey roleSecretIDPrefix roleNameHMAC : string)
    (done : list string) (secretIDHMAC : string) (rest : list string)
    (err : error) (fs : list (option error)) (w : world) :
  createHMAC hmacKey roleName = Ok roleNameHMAC ->
  children (roleSecretIDPrefix +:+ roleNameHMAC +:+ "/") (store w)
  = done ++ secretIDHMAC :: rest ->
  faults w = None :: repeat None (List.length done) ++ Some err :: fs ->
  let entryIndex := entryIndexOf roleSecretIDPrefix roleNameHMAC in
  exists w',
    flushRoleSecrets roleName hmacKey roleSecretIDPrefix w
    = (Err (fmt_Errorf "error deleting SecretID %q from storage: %w"
              [ArgString secretIDHMAC] (Some err)), w')
    /\ (forall k, In k done -> store w' !! entryIndex k = None)
    /\ (forall key, (forall k, In k done -> entryIndex k <> key) ->
                    store w' !! key = store w !! key)
    /\ since w w'
       = [ Locking RLock secretIDListingLock;
           Storage (List (roleSecretIDPrefix +:+ roleNameHMAC +:+ "/")) None ]
         ++ flat_map (deleted roleSecretIDPrefix roleNameHMAC) done
         ++ [ Locking Lock (secretIDLock secretIDHMAC);
              Storage (Delete (entryIndex secretIDHMAC)) (Some err);
              Locking Unlock (secretIDLock secretIDHMAC);
              Locking RUnlock secretIDListingLock ].
Proof.
  intros Hr Hlist Hf entryIndex. subst entryIndex.
  unfold flushRoleSecrets. rewrite Hr.
  unfold lockop, defer, bind at 1. run_simpl.
  unfold bind, s_List, storageCall, nextFault. run_simpl. rewrite Hf. run_simpl.
  rewrite Hlist.
  match goal with
  | |- context [flushLoop _ _ _ ?w1] =>
      destruct (flushLoop_stops roleSecretIDPrefix roleNameHMAC done secretIDHMAC rest
                  err fs w1) as (w' & Hrun & Hstore & Hfaults & Htrace); [reflexivity|]
  end.
  rewrite Hrun. eexists. split; [reflexivity|].
  unfold since. run_simpl. rewrite Hstore, Htrace. run_simpl.
  split; [|split].
  - intros k Hk.
    apply (fold_delete_In (entryIndexOf roleSecretIDPrefix roleNameHMAC)), Hk.
  - intros key Hkey.
    apply (fold_delete_other (entryIndexOf roleSecretIDPrefix roleNameHMAC)), Hkey.
  - flatten_trace. rewrite drop_length_app.
    reflexivity.
Qed.

(** ** The properties on sample runs *)

Lemma nonLockedSecretIDStorageEntry_reconciles_witness :
  exists w',
    nonLockedSecretIDStorageEntry (H := sampleImports) "secret_id/"
      (digestOf "hmac-key" "role1") (digestOf "hmac-key" "secret1") legacyWorld
    = (Ok (Some (withNumUses 5 5)), w')
    /\ store w' !! sampleKey = Some (DocSecretID (withNumUses 5 5)).
Proof.
  destruct (nonLockedSecretIDStorageEntry_reconciles (H := sampleImports) "secret_id/"
              (digestOf "hmac-key" "role1") (digestOf "hmac-key" "secret1") legacyWorld
              (DocSecretID legacyEntry) legacyEntry)
    as (_ & _ & _ & Hread & Hreturns).
  - vm_compute. reflexivity.
  - reflexivity.
  - discriminate.
  - discriminate.
  - destruct Hreturns as [w' Hrun].
    + vm_compute. discriminate.
    + vm_compute. discriminate.
    + discriminate.
    + constructor.
    + exists w'. split; [exact Hrun|].
      destruct (Hread _ _ Hrun) as (_ & Hstore & _).
      rewrite Hstore. apply lookup_insert_eq.
Defined.

Lemma registerSecretIDEntry_already_registered_witness :
  (exists w',
     registerSecretIDEntry (H := sampleImports) sampleBackend "role1" "secret1" "hmac-key"
       "secret_id/" oneUseEntry legacyWorld
     = (Err (errors_New "SecretID is already registered"), w')
     /\ List.filter isWrite (since legacyWorld w')
        = [Storage (Put sampleKey (DocSecretID (withNumUses 5 5))) None])
  /\ (exists w',
        registerSecretIDEntry (H := sampleImports) sampleBackend "role1" "secret1" "hmac-key"
          "secret_id/" oneUseEntry racedWorld
        = (Err (errors_New "SecretID is already registered"), w')
        /\ List.filter isWrite (since racedWorld w') = []).
Proof.
  split.
  - destruct (proj1 (registerSecretIDEntry_already_registered (H := sampleImports)
                       sampleBackend "role1" "secret1" "hmac-key" "secret_id/" oneUseEntry
                       legacyWorld (digestOf "hmac-key" "secret1") (digestOf "hmac-key" "role1")
                       (DocSecretID legacyEntry) legacyEntry
                       ltac:(vm_compute; reflexivity) ltac:(vm_compute; reflexivity)
                       eq_refl ltac:(discriminate) eq_refl))
      as (w' & Hrun & _ & Hwrites & _).
    + vm_compute. reflexivity.
    + exists w'. split; [exact Hrun | exact Hwrites].
  - destruct (proj2 (registerSecretIDEntry_already_registered (H := sampleImports)
                       sampleBackend "role1" "secret1" "hmac-key" "secret_id/" oneUseEntry
                       racedWorld (digestOf "hmac-key" "secret1") (digestOf "hmac-key" "role1")
                       (DocSecretID oneUseEntry) oneUseEntry
                       ltac:(vm_compute; reflexivity) ltac:(vm_compute; reflexivity)
                       eq_refl ltac:(discriminate) eq_refl))
      as (w' & Hrun & _ & Hwrites & _).
    + vm_compute. reflexivity.
    + vm_compute. reflexivity.
    + exists w'. split; [exact Hrun | exact Hwrites].
Defined.

Lemma digestOf_Ok (key value digest : string) :
  createHMAC key value = Ok digest -> digestOf key value = digest.
Proof. intros Hd. unfold digestOf. rewrite Hd. reflexivity. Qed.

Lemma sample_registration_succeeds :
  fst (registerSecretIDEntry (H := sampleImports) sampleBackend "role1" "secret1" "hmac-key"
         "secret_id/" oneUseEntry freshWorld)
  = Ok (setAccessor "uuid-0001" (setTimes 1000 1000 0 oneUseEntry)).
Proof. vm_compute. reflexivity. Qed.

Lemma sample_accessor_write_fails :
  In (Storage (Put ("accessor/" +:+ "salt:uuid-0001")
                 (DocAccessor {| SecretIDHMAC := digestOf "hmac-key" "secret1" |}))
        (Some storageDown))
     (since accessorFailsWorld
        (snd (registerSecretIDEntry (H := sampleImports) sampleBackend "role1" "secret1"
                "hmac-key" "secret_id/" oneUseEntry accessorFailsWorld))).
Proof. vm_compute. tauto. Qed.

Lemma registerSecretIDEntry_accessor_before_entry_witness :
  (exists e w' secretIDHMAC accessorIndex,
     registerSecretIDEntry (H := sampleImports) sampleBackend "role1" "secret1" "hmac-key"
       "secret_id/" oneUseEntry freshWorld
     = (Ok e, w')
     /\ since freshWorld w'
        = [ Locking RLock (secretIDLock secretIDHMAC);
            Storage (Get sampleKey) None;
            Locking RUnlock (secretIDLock secretIDHMAC);
            Locking Lock (secretIDLock secretIDHMAC);
            Storage (Get sampleKey) None;
            Locking Lock (secretIDAccessorLock (SecretIDAccessor e));
            Storage (Put accessorIndex (DocAccessor {| SecretIDHMAC := secretIDHMAC |})) None;
            Locking Unlock (secretIDAccessorLock (SecretIDAccessor e));
            Storage (Put sampleKey (DocSecretID e)) None;
            Locking Unlock (secretIDLock secretIDHMAC) ])
  /\ (exists w',
        registerSecretIDEntry (H := sampleImports) sampleBackend "role1" "secret1" "hmac-key"
          "secret_id/" oneUseEntry accessorFailsWorld
        = (Err (fmt_Errorf "failed to persist accessor index entry: %w" [] (Some storageDown)),
           w')
        /\ forall entryIndex e outcome,
             ~ In (Storage (Put entryIndex (DocSecretID e)) outcome)
                 (since accessorFailsWorld w')).
Proof.
  split.
  - destruct (registerSecretIDEntry (H := sampleImports) sampleBackend "role1" "secret1"
                "hmac-key" "secret_id/" oneUseEntry freshWorld) as [r w'] eqn:Hrun.
    pose proof (registerSecretIDEntry_accessor_before_entry (H := sampleImports) _ _ _ _ _ _ _
                  _ _ Hrun) as [Hok _].
    pose proof sample_registration_succeeds as Hfst. rewrite Hrun in Hfst.
    cbn [fst] in Hfst. subst r.
    destruct (Hok _ eq_refl) as (secretIDHMAC & roleNameHMAC & accessorIndex & Hs & Hr & Ht).
    assert (Hkey : entryIndexOf "secret_id/" roleNameHMAC secretIDHMAC = sampleKey).
    { unfold sampleKey. rewrite (digestOf_Ok _ _ _ Hs), (digestOf_Ok _ _ _ Hr). reflexivity. }
    cbn zeta in Ht. rewrite Hkey in Ht.
    eexists _, w', secretIDHMAC, accessorIndex. split; [reflexivity | exact Ht].
  - destruct (registerSecretIDEntry (H := sampleImports) sampleBackend "role1" "secret1"
                "hmac-key" "secret_id/" oneUseEntry accessorFailsWorld) as [r w'] eqn:Hrun.
    pose proof (registerSecretIDEntry_accessor_before_entry (H := sampleImports) _ _ _ _ _ _ _
                  _ _ Hrun) as [_ Hfail].
    destruct (Hfail ("accessor/" +:+ "salt:uuid-0001")
                {| SecretIDHMAC := digestOf "hmac-key" "secret1" |} storageDown)
      as [-> Hnone].
    + pose proof sample_accessor_write_fails as Hin. rewrite Hrun in Hin. exact Hin.
    + exists w'. split; [reflexivity | exact Hnone].
Defined.

Lemma registerSecretIDEntry_expiration_witness :
  exists e w',
    registerSecretIDEntry (H := sampleImports) sampleBackend "role1" "secret1" "hmac-key"
      "secret_id/" oneUseEntry freshWorld
    = (Ok e, w')
    /\ store w' !! sampleKey = Some (DocSecretID e)
    /\ CreationTime e = 1000%Z
    /\ ExpirationTime e = 0%Z.
Proof.
  destruct (registerSecretIDEntry (H := sampleImports) sampleBackend "role1" "secret1"
              "hmac-key" "secret_id/" oneUseEntry freshWorld) as [r w'] eqn:Hrun.
  pose proof sample_registration_succeeds as Hfst. rewrite Hrun in Hfst.
  cbn [fst] in Hfst. subst r.
  destruct (registerSecretIDEntry_expiration (H := sampleImports) _ _ _ _ _ _ _ _ _ Hrun)
    as ((secretIDHMAC & roleNameHMAC & Hs & Hr & Hstored) & Hcreated & _ & Hzero & _).
  assert (Hkey : entryIndexOf "secret_id/" roleNameHMAC secretIDHMAC = sampleKey).
  { unfold sampleKey. rewrite (digestOf_Ok _ _ _ Hs), (digestOf_Ok _ _ _ Hr). reflexivity. }
  rewrite Hkey in Hstored.
  eexists _, w'. split; [reflexivity|]. split; [exact Hstored|]. split; [exact Hcreated|].
  apply Hzero; reflexivity.
Defined.

Lemma flushRoleSecrets_stops_at_first_error_witness :
  exists w',
    flushRoleSecrets "role1" "hmac-key" "secret_id/" flushWorldB
    = (Err (fmt_Errorf "error deleting SecretID %q from storage: %w"
              [ArgString "b"] (Some storageDown)), w')
    /\ store w' !! flushKey "a" = None
    /\ store w' !! flushKey "b" = Some (DocSecretID oneUseEntry).
Proof.
  destruct (flushRoleSecrets_stops_at_first_error "role1" "hmac-key" "secret_id/"
              (digestOf "hmac-key" "role1") ["a"] "b" [] storageDown [] flushWorldB)
    as (w' & Hrun & Hdeleted & Hkept & _).
  - vm_compute. reflexivity.
  - vm_compute. reflexivity.
  - reflexivity.
  - exists w'. split; [exact Hrun|]. split.
    + apply (Hdeleted "a"). left. reflexivity.
    + rewrite (Hkept (flushKey "b")).
      * vm_compute. reflexivity.
      * intros k [<-|[]]. vm_compute. discriminate.
Defined.

(** C1 as stated fails on an entry written by an old release: the check
    that finds it also puts the upgraded entry back, so the call that
    answers "SecretID is already registered" has written to storage. *)
Lemma registerSecretIDEntry_upgrade_write_counterexample :
  store legacyWorld !! sampleKey = Some (DocSecretID legacyEntry)
  /\ fst (registerSecretIDEntry (H := sampleImports) sampleBackend "role1" "secret1" "hmac-key"
            "secret_id/" oneUseEntry legacyWorld)
     = Err (errors_New "SecretID is already registered")
  /\ List.filter isWrite
       (since legacyWorld
          (snd (registerSecretIDEntry (H := sampleImports) sampleBackend "role1" "secret1"
                  "hmac-key" "secret_id/" oneUseEntry legacyWorld)))
     = [Storage (Put sampleKey (DocSecretID (withNumUses 5 5))) None].
Proof. vm_compute. repeat split. Qed.

(** C5 as stated fails: the value flushRoleSecrets returns is the same
    whether no entry or one entry was deleted before the failing delete, so
    it carries no count. *)
Lemma flushRoleSecrets_no_count_counterexample :
  fst (flushRoleSecrets "role1" "hmac-key" "secret_id/" flushWorldA)
  = fst (flushRoleSecrets "role1" "hmac-key" "secret_id/" flushWorldB)
  /\ List.length
       (List.filter isDelete
          (since flushWorldA
             (snd (flushRoleSecrets "role1" "hmac-key" "secret_id/" flushWorldA)))) = 0%nat
  /\ List.length
       (List.filter isDelete
          (since flushWorldB
             (snd (flushRoleSecrets "role1" "hmac-key" "secret_id/" flushWorldB)))) = 1%nat.
Proof. vm_compute. repeat split. Qed.

(** ** The digest as a storage key *)

Lemma hexdigit_isHexDigit (d : Z) :
  (0 <= d < 16)%Z -> isHexDigit (Sha256.hexdigit d) = true.
Proof.
  intros Hd.
  assert (Hc : (d = 0 \/ d = 1 \/ d = 2 \/ d = 3 \/ d = 4 \/ d = 5 \/ d = 6 \/ d = 7
                \/ d = 8 \/ d = 9 \/ d = 10 \/ d = 11 \/ d = 12 \/ d = 13 \/ d = 14
                \/ d = 15)%Z) by lia.
  repeat (destruct Hc as [->|Hc]; [reflexivity|]). subst d. reflexivity.
Qed.

Lemma land_byte (x : Z) : isByte (Z.land x 0xff).
Proof.
  unfold isByte. change 0xff%Z with (Z.ones 8).
  rewrite Z.land_ones by lia. apply Z.mod_pos_bound. reflexivity.
Qed.

Lemma be_bytes_isByte (n : nat) (x : Z) : Forall isByte (Sha256.be_bytes n x).
Proof.
  induction n as [|n IH]; cbn [Sha256.be_bytes]; constructor; [apply land_byte | exact IH].
Qed.

Lemma sum256_isByte (msg : list Z) : Forall isByte (Sha256.sum256 msg).
Proof.
  unfold Sha256.sum256.
  generalize (fold_left Sha256.compress
                (Sha256.chunks (List.length (Sha256.pad msg)) 64 (Sha256.pad msg)) Sha256.H0).
  intros ws. induction ws as [|x ws IH]; cbn [List.map List.concat]; [constructor|].
  apply Forall_app. split; [apply be_bytes_isByte | exact IH].
Qed.

Lemma EncodeToString_hex (bs : list Z) :
  Forall isByte bs ->
  forallb isHexDigit (list_ascii_of_string (Sha256.EncodeToString bs)) = true.
Proof.
  induction 1 as [|b bs Hb _ IH]; [reflexivity|].
  cbn [Sha256.EncodeToString list_ascii_of_string forallb].
  rewrite IH, !hexdigit_isHexDigit; [reflexivity| |].
  - change 0xf%Z with (Z.ones 4). rewrite Z.land_ones by lia.
    apply Z.mod_pos_bound. reflexivity.
  - unfold isByte in Hb. rewrite Z.shiftr_div_pow2 by lia.
    change (2 ^ 4)%Z with 16%Z. split.
    + apply Z.div_pos; lia.
    + apply Z.div_lt_upper_bound; lia.
Qed.

Lemma hex_no_slash (s : string) :
  forallb isHexDigit (list_ascii_of_string s) = true -> Contains s "/" = false.
Proof.
  induction s as [|c s IH]; [reflexivity|].
  cbn [list_ascii_of_string forallb]. intros [Hc Hs]%andb_true_iff.
  rewrite Contains_String, (IH Hs). cbn [String.prefix].
  destruct (ascii_dec "/" c) as [<-|_]; [discriminate Hc | reflexivity].
Qed.

Lemma createHMAC_Ok_hex (key value digest : string) :
  createHMAC key value = Ok digest ->
  forallb isHexDigit (list_ascii_of_string digest) = true.
Proof.
  unfold createHMAC.
  destruct (String.eqb key ""); [discriminate|].
  destruct (Z.of_nat (String.length value) >? maxHmacInputLength)%Z; [discriminate|].
  intros [= <-]. apply EncodeToString_hex. unfold Sha256.hmac. apply sum256_isByte.
Qed.

(** X1. Every digest createHMAC returns is made of the characters 0-9 and
    a-f only; in particular it holds no "/", so it is one segment of a
    storage path. *)
Theorem createHMAC_digest_hex (key value digest : string) :
  createHMAC key value = Ok digest ->
  forallb isHexDigit (list_ascii_of_string digest) = true
  /\ Contains digest "/" = false.
Proof.
  intros Hd%createHMAC_Ok_hex. split; [exact Hd | apply hex_no_slash, Hd].
Qed.

Lemma createHMAC_digest_hex_witness :
  forallb isHexDigit (list_ascii_of_string (digestOf "hmac-key" "secret1")) = true
  /\ Contains (digestOf "hmac-key" "secret1") "/" = false.
Proof.
  apply (createHMAC_digest_hex "hmac-key" "secret1"). vm_compute. reflexivity.
Defined.

(** ** The accessor index *)

(** Case analysis on a run, with lookups of a key just written or just
    deleted resolved on the way. *)
Ltac run_simpl_store :=
  run_simpl; try unfold decodeSecretIDStorageEntry; cbn [DecodeJSONAccessor DecodeJSON].

Ltac run_cases_store :=
  run_unfold; run_simpl_store; rewrite_known; run_simpl_store;
  repeat (first [ rewrite lookup_insert_eq
                | rewrite lookup_delete_eq
                | match goal with
                  | |- context [match ?x with _ => _ end] => destruct_innermost x
                  end ];
          run_simpl_store; rewrite_known; run_simpl_store).

Ltac run_simpl_in H :=
  cbn [fst snd store faults uuids clock race trace log setStore setFaults setUuids hd tl] in H.

Ltac locks_balanced :=
  cbn [locksHeld lockId_eqb]; rewrite ?String.eqb_refl; cbn [locksHeld lockId_eqb];
  reflexivity.

Section AccessorIndexProperties.
Context `{Imports}.

(** X2. An accessor index entry written by createSecretIDAccessorEntry is
    found by secretIDAccessorEntry under the same role prefix: the lookup of
    the accessor just created returns the SecretID HMAC it was created for,
    and changes nothing in storage. *)
Theorem createSecretIDAccessorEntry_then_read (b : backend) (entry : secretIDStorageEntry)
    (secretIDHMAC roleSecretIDPrefix : string) (w : world) :
  forall e w1,
    createSecretIDAccessorEntry b entry secretIDHMAC roleSecretIDPrefix w = (Ok e, w1) ->
    SecretIDAccessor e <> "" ->
    hd None (faults w1) = None ->
    exists w2,
      secretIDAccessorEntry b (SecretIDAccessor e) roleSecretIDPrefix w1
      = (Ok (Some {| SecretIDHMAC := secretIDHMAC |}), w2)
      /\ store w2 = store w1.
Proof.
  intros e w1. unfold createSecretIDAccessorEntry. run_cases.
  all: intros [= <- <-] Hne Hf.
  all: cbn [SecretIDAccessor setAccessor] in Hne; apply String.eqb_neq in Hne.
  all: run_simpl_in Hf.
  all: unfold secretIDAccessorEntry; cbn [SecretIDAccessor setAccessor].
  all: run_cases_store.
  all: eexists; split; reflexivity.
Qed.
(** X3. secretIDAccessorEntry is a pure lookup: in every run, whatever
    storage answers, it leaves storage as it was, makes at most one storage
    call, a Get, and has released the accessor's read lock when it returns.
    With an empty accessor it fails with "missing secretIDAccessor" before
    taking the lock or calling storage, and an accessor with no entry gives
    nil without an error. *)
Theorem secretIDAccessorEntry_read_only (b : backend)
    (secretIDAccessor roleSecretIDPrefix : string) (w : world) :
  forall r w',
    secretIDAccessorEntry b secretIDAccessor roleSecretIDPrefix w = (r, w') ->
    store w' = store w
    /\ locksHeld (since w w') [] = Some []
    /\ (storageCalls (since w w') = []
        \/ exists key outcome, storageCalls (since w w') = [(Get key, outcome)])
    /\ (secretIDAccessor = "" ->
        r = Err (errors_New "missing secretIDAccessor") /\ since w w' = [])
    /\ (forall SaltID,
          secretIDAccessor <> "" -> Salt b = Ok SaltID ->
          hd None (faults w) = None ->
          store w !! accessorIndexOf SaltID roleSecretIDPrefix secretIDAccessor = None ->
          r = Ok None).
Proof.
  intros r w'. unfold secretIDAccessorEntry, accessorIndexOf. run_cases_store.
  all: intros [= <- <-]; since_trace.
  all: repeat match goal with
              | E : (_ =? _) = true |- _ => apply String.eqb_eq in E
              | E : (_ =? _) = false |- _ => apply String.eqb_neq in E
              end.
  all: (split; [reflexivity|]); (split; [locks_balanced|]).
  all: (split; [first [left; reflexivity | right; eexists _, _; reflexivity]|]).
  all: split; [intros Hempty; try contradiction; try (split; reflexivity)|].
  all: intros SaltID Hne Hs Hf Habsent; try contradiction; try reflexivity; congruence.
Qed.

(** X4. deleteSecretIDAccessorEntry, when storage serves the delete, removes
    the accessor's index entry and nothing else; it succeeds as well when
    there is no such entry, leaving storage as it is; afterwards the accessor
    resolves to nil. *)
Theorem deleteSecretIDAccessorEntry_removes (b : backend)
    (secretIDAccessor roleSecretIDPrefix : string) (SaltID : string -> string) (w : world) :
  Salt b = Ok SaltID ->
  hd None (faults w) = None ->
  let key := accessorIndexOf SaltID roleSecretIDPrefix secretIDAccessor in
  exists w1,
    deleteSecretIDAccessorEntry b secretIDAccessor roleSecretIDPrefix w = (Ok tt, w1)
    /\ store w1 = delete key (store w)
    /\ (store w !! key = None -> store w1 = store w)
    /\ (secretIDAccessor <> "" -> hd None (faults w1) = None ->
        exists w2,
          secretIDAccessorEntry b secretIDAccessor roleSecretIDPrefix w1 = (Ok None, w2)).
Proof.
  intros Hsalt Hf key. subst key.
  unfold deleteSecretIDAccessorEntry, accessorIndexOf. run_cases_store.
  all: eexists; (split; [reflexivity|]); run_simpl; (split; [reflexivity|]).
  all: split; [intros Habsent; apply delete_id, Habsent|].
  all: intros Hne Hf1; apply String.eqb_neq in Hne; run_simpl_in Hf1.
  all: unfold secretIDAccessorEntry; run_cases_store; eexists; reflexivity.
Qed.

(** X5. In every run of deleteSecretIDAccessorEntry the accessor's lock has
    been released at return and storage has been called at most once, with a
    Delete; when that delete fails the error comes back wrapped as "failed to
    delete accessor storage entry" and storage is unchanged. *)
Theorem deleteSecretIDAccessorEntry_every_run (b : backend)
    (secretIDAccessor roleSecretIDPrefix : string) (w : world) :
  forall r w',
    deleteSecretIDAccessorEntry b secretIDAccessor roleSecretIDPrefix w = (r, w') ->
    locksHeld (since w w') [] = Some []
    /\ (storageCalls (since w w') = []
        \/ exists key outcome, storageCalls (since w w') = [(Delete key, outcome)])
    /\ (forall key err,
          In (Storage (Delete key) (Some err)) (since w w') ->
          r = Err (fmt_Errorf "failed to delete accessor storage entry: %w" [] (Some err))
          /\ store w' = store w).
Proof.
  intros r w'. unfold deleteSecretIDAccessorEntry. run_cases_store.
  all: intros [= <- <-]; since_trace.
  all: (split; [locks_balanced|]).
  all: (split; [first [left; reflexivity | right; eexists _, _; reflexivity]|]).
  all: intros key err Hin; cbn [In] in Hin;
    repeat (destruct Hin as [Hin|Hin]; [try discriminate Hin|]); try contradiction.
  all: injection Hin as <- <-; split; reflexivity.
Qed.

End AccessorIndexProperties.

(** ** Registration and the two indexes *)

Section RegistrationProperties.
Context `{Imports}.

Lemma upgrade_settled (x y : secretIDStorageEntry) :
  SecretIDNumUses y = SecretIDNumUses (fst (upgrade x)) ->
  SecretIDNumUsesDeprecated y = SecretIDNumUsesDeprecated (fst (upgrade x)) ->
  upgrade y = (y, false).
Proof.
  intros Hn Hd. apply (proj1 (upgrade_spec y)).
  rewrite Hn, Hd. clear Hn Hd y.
  unfold upgrade, setNumUses, setNumUsesDeprecated.
  destruct x as [acc n ttl ct et ut md cl tb d]. cbn.
  repeat (match goal with
          | |- context [(?a =? ?b)%Z] => destruct (Z.eqb_spec a b)
          | |- context [(?a <? ?b)%Z] => destruct (Z.ltb_spec a b)
          end; cbn); lia.
Qed.

Lemma decode_counts (e e1 : secretIDStorageEntry) :
  decodeSecretIDStorageEntry (DocSecretID e) = Ok e1 ->
  SecretIDNumUses e1 = SecretIDNumUses e
  /\ SecretIDNumUsesDeprecated e1 = SecretIDNumUsesDeprecated e
  /\ SecretIDAccessor e1 = SecretIDAccessor e
  /\ SecretIDTTL e1 = SecretIDTTL e
  /\ CreationTime e1 = CreationTime e
  /\ ExpirationTime e1 = ExpirationTime e
  /\ LastUpdatedTime e1 = LastUpdatedTime e
  /\ Metadata e1 = Metadata e.
Proof. intros [= <-]. repeat split. Qed.

(** X6. After a registration that succeeded, both indexes answer for the
    new SecretID: looking up the accessor of the entry returned gives the
    HMAC of the SecretID, and reading the credential entry at that HMAC gives
    the entry as stored and decoded.  The accessor's key and the entry's key
    must differ, which holds when the accessor prefixes and the role prefix
    are different name spaces. *)
Theorem registerSecretIDEntry_then_lookups (b : backend)
    (roleName secretID hmacKey roleSecretIDPrefix : string)
    (secretEntry : secretIDStorageEntry) (w : world)
    (secretIDHMAC roleNameHMAC : string) (SaltID : string -> string) :
  createHMAC hmacKey secretID = Ok secretIDHMAC ->
  createHMAC hmacKey roleName = Ok roleNameHMAC ->
  Salt b = Ok SaltID ->
  forall e w1,
    registerSecretIDEntry b roleName secretID hmacKey roleSecretIDPrefix secretEntry w
    = (Ok e, w1) ->
    SecretIDAccessor e <> "" ->
    accessorIndexOf SaltID roleSecretIDPrefix (SecretIDAccessor e)
    <> entryIndexOf roleSecretIDPrefix roleNameHMAC secretIDHMAC ->
    faults w1 = [] ->
    (exists w2,
       secretIDAccessorEntry b (SecretIDAccessor e) roleSecretIDPrefix w1
       = (Ok (Some {| SecretIDHMAC := secretIDHMAC |}), w2))
    /\ (exists e1,
          decodeSecretIDStorageEntry (DocSecretID e) = Ok e1
          /\ exists w2,
               nonLockedSecretIDStorageEntry roleSecretIDPrefix roleNameHMAC secretIDHMAC w1
               = (Ok (Some (fst (upgrade e1))), w2)).
Proof.
  intros Hs Hr Hsalt e w1.
  match goal with |- _ -> ?Q => set (after := Q) end.
  unfold registerSecretIDEntry, nonLockedSecretIDStorageEntry,
    createSecretIDAccessorEntry, nonLockedSetSecretIDStorageEntry.
  run_cases.
  all: intros [= <- <-]; subst after; unfold accessorIndexOf; rewrite_known.
  all: intros Hne Hkeys Hf.
  all: cbn [SecretIDAccessor setAccessor setTimes] in Hne, Hkeys; apply String.eqb_neq in Hne.
  all: run_simpl_in Hf.
  all: split.
  all: try (unfold secretIDAccessorEntry; cbn [SecretIDAccessor setAccessor setTimes];
            run_unfold; run_simpl_store; rewrite_known; run_simpl_store;
            rewrite ?Hf; run_simpl_store;
            rewrite lookup_insert_ne by (intros Heq; apply Hkeys; symmetry; exact Heq);
            run_cases_store; eexists; reflexivity).
  all: eexists; (split; [reflexivity|]); cbn [DecodeJSON].
  all: unfold nonLockedSecretIDStorageEntry, nonLockedSetSecretIDStorageEntry;
    run_unfold; run_simpl_store; rewrite_known; run_simpl_store;
    rewrite ?Hf; run_simpl_store; run_cases_store; rewrite ?Hf; run_simpl_store;
    eexists; reflexivity.
Qed.

(** X7. Registering the same SecretID of the same role a second time, in the
    storage the first registration left, fails with "SecretID is already
    registered" whatever entry is passed, and draws no new accessor. *)
Theorem registerSecretIDEntry_twice (b : backend)
    (roleName secretID hmacKey roleSecretIDPrefix : string)
    (secretEntry : secretIDStorageEntry) (w : world) :
  forall e w1,
    registerSecretIDEntry b roleName secretID hmacKey roleSecretIDPrefix secretEntry w
    = (Ok e, w1) ->
    faults w1 = [] ->
    forall secretEntry2,
    exists w2,
      registerSecretIDEntry b roleName secretID hmacKey roleSecretIDPrefix secretEntry2 w1
      = (Err (errors_New "SecretID is already registered"), w2)
      /\ uuids w2 = uuids w1.
Proof.
  intros e w1.
  match goal with |- _ -> ?Q => set (after := Q) end.
  unfold registerSecretIDEntry, nonLockedSecretIDStorageEntry,
    createSecretIDAccessorEntry, nonLockedSetSecretIDStorageEntry.
  run_cases.
  all: intros [= <- <-]; subst after; intros Hf secretEntry2; run_simpl_in Hf.
  all: unfold registerSecretIDEntry, nonLockedSecretIDStorageEntry,
    createSecretIDAccessorEntry, nonLockedSetSecretIDStorageEntry.
  all: run_unfold; run_simpl_store; rewrite_known; run_simpl_store;
    rewrite ?Hf; run_simpl_store; run_cases_store; rewrite ?Hf; run_simpl_store;
    eexists; split; reflexivity.
Qed.

(** X8. In every run of registerSecretIDEntry, whatever storage, the UUID
    source and other goroutines do: every lock taken has been released at
    return, in the reverse order of taking; and storage is only called to
    read or write the entry at the SecretID's key and to write an accessor
    index entry naming the SecretID's HMAC.  It never deletes and never
    lists. *)
Theorem registerSecretIDEntry_every_run (b : backend)
    (roleName secretID hmacKey roleSecretIDPrefix : string)
    (secretEntry : secretIDStorageEntry) (w : world) :
  forall r w',
    registerSecretIDEntry b roleName secretID hmacKey roleSecretIDPrefix secretEntry w
    = (r, w') ->
    locksHeld (since w w') [] = Some []
    /\ (forall secretIDHMAC roleNameHMAC,
          createHMAC hmacKey secretID = Ok secretIDHMAC ->
          createHMAC hmacKey roleName = Ok roleNameHMAC ->
          Forall (fun co =>
                    registrationCall
                      (entryIndexOf roleSecretIDPrefix roleNameHMAC secretIDHMAC)
                      secretIDHMAC (fst co))
                 (storageCalls (since w w'))).
Proof.
  intros r w'.
  unfold registerSecretIDEntry, nonLockedSecretIDStorageEntry,
    createSecretIDAccessorEntry, nonLockedSetSecretIDStorageEntry.
  run_cases.
  all: intros [= <- <-]; since_trace.
  all: (split; [locks_balanced|]).
  all: intros sh rh Hsh Hrh; try discriminate.
  all: injection Hsh as <-; injection Hrh as <-.
  all: unfold storageCalls; cbn [omap list_omap]; repeat constructor.
Qed.


End RegistrationProperties.

(** ** Bulk flush, every run *)

Lemma locksHeld_app (t1 t2 : list event) (held : list (lockOp * lockId)) :
  locksHeld (t1 ++ t2) held
  = match locksHeld t1 held with
    | Some held' => locksHeld t2 held'
    | None => None
    end.
Proof.
  revert held. induction t1 as [|e t1 IH]; intros held; [reflexivity|].
  cbn [app locksHeld].
  destruct e as [c o|[] l]; try apply IH;
    destruct held as [|[[] l'] held']; try reflexivity;
    destruct (lockId_eqb l l'); try reflexivity; apply IH.
Qed.

Lemma lockId_eqb_refl (l : lockId) : lockId_eqb l l = true.
Proof. destruct l; cbn; try apply String.eqb_refl; reflexivity. Qed.

Lemma flushLoop_every_run (roleSecretIDPrefix roleNameHMAC : string)
    (secretIDHMACs : list string) :
  forall w r w',
    flushLoop roleSecretIDPrefix roleNameHMAC secretIDHMACs w = (r, w') ->
    exists new,
      trace w' = trace w ++ new
      /\ (forall held, locksHeld new held = Some held)
      /\ Forall (fun co => exists k,
                   In k secretIDHMACs
                   /\ fst co = Delete (entryIndexOf roleSecretIDPrefix roleNameHMAC k))
                (storageCalls new).
Proof.
  induction secretIDHMACs as [|k rest IH]; intros w r w'.
  - cbn [flushLoop]. run_cases. intros [= <- <-]. exists [].
    rewrite app_nil_r. repeat split; constructor.
  - cbn [flushLoop]. run_cases.
    + intros [= <- <-].
      eexists [_; _; _]. run_simpl. flatten_trace. split; [reflexivity|]. split.
      * intros held. cbn [locksHeld]. rewrite lockId_eqb_refl. reflexivity.
      * unfold storageCalls. cbn [omap list_omap]. constructor; [|constructor].
        exists k. split; [left|]; reflexivity.
    + intros Hrest. destruct (IH _ _ _ Hrest) as (new & Htrace & Hlocks & Hcalls).
      run_simpl_in Htrace.
      eexists (_ :: _ :: _ :: new). split; [|split].
      * rewrite Htrace. flatten_trace. reflexivity.
      * intros held. cbn [locksHeld]. rewrite lockId_eqb_refl. apply Hlocks.
      * unfold storageCalls. cbn [omap list_omap]. constructor.
        -- exists k. split; [left|]; reflexivity.
        -- eapply Forall_impl; [exact Hcalls|].
           intros co (k' & Hin & Hco). exists k'. split; [right; exact Hin | exact Hco].
Qed.

(** X10. In every run of flushRoleSecrets, whatever storage answers: every
    lock taken (the listing lock, then one SecretID lock at a time) has been
    released at return; storage is called once to list the role's SecretIDs
    and after that only to delete keys under the role's own prefix.  It
    never reads or writes an entry, so it cannot touch an accessor index
    entry.  When the HMAC of the role name cannot be computed it returns
    before taking any lock. *)
Theorem flushRoleSecrets_every_run (roleName hmacKey roleSecretIDPrefix : string) (w : world) :
  forall r w',
    flushRoleSecrets roleName hmacKey roleSecretIDPrefix w = (r, w') ->
    locksHeld (since w w') [] = Some []
    /\ (forall err, createHMAC hmacKey roleName = Err err ->
                    r = Err (fmt_Errorf "failed to create HMAC of role_name: %w" [] (Some err))
                    /\ w' = w)
    /\ (forall roleNameHMAC,
          createHMAC hmacKey roleName = Ok roleNameHMAC ->
          exists outcome deletes,
            storageCalls (since w w')
            = (List (roleSecretIDPrefix +:+ roleNameHMAC +:+ "/"), outcome) :: deletes
            /\ Forall (fun co => exists k,
                         fst co = Delete (entryIndexOf roleSecretIDPrefix roleNameHMAC k))
                      deletes).
Proof.
  intros r w'. unfold flushRoleSecrets. run_cases.
  - intros [= <- <-]. since_trace. split; [locks_balanced|]. split.
    + intros err [=]. + intros rh [= <-].
      eexists _, []. split; [reflexivity | constructor].
  - match goal with
    | E : flushLoop _ _ _ _ = _ |- _ =>
        destruct (flushLoop_every_run _ _ _ _ _ _ E) as (new & Htrace & Hlocks & Hcalls)
    end.
    run_simpl_in Htrace.
    intros [= <- <-]. unfold since. run_simpl. rewrite Htrace. flatten_trace.
    rewrite drop_length_app. split; [|split].
    + cbn [locksHeld]. rewrite locksHeld_app, Hlocks. cbn [locksHeld lockId_eqb]. reflexivity.
    + intros err [=].
    + intros rh [= <-]. eexists _, _. unfold storageCalls. cbn [omap list_omap].
      rewrite omap_app. cbn [omap list_omap]. rewrite app_nil_r.
      split; [reflexivity|].
      eapply Forall_impl; [exact Hcalls|].
      intros co (k & _ & Hco). exists k. exact Hco.
  - intros [= <- <-]. since_trace. split; [reflexivity|]. split.
    + intros err [= <-]. split; reflexivity.
    + intros rh [=].
Qed.

(** ** Bulk flush with a storage that works *)

Lemma flushLoop_all (roleSecretIDPrefix roleNameHMAC : string)
    (secretIDHMACs : list string) (w : world) :
  Forall (fun f => f = None) (take (List.length secretIDHMACs) (faults w)) ->
  exists w',
    flushLoop roleSecretIDPrefix roleNameHMAC secretIDHMACs w = (Ok tt, w')
    /\ store w'
       = fold_left (fun m k => delete (entryIndexOf roleSecretIDPrefix roleNameHMAC k) m)
           secretIDHMACs (store w)
    /\ faults w' = drop (List.length secretIDHMACs) (faults w)
    /\ trace w'
       = trace w ++ flat_map (deleted roleSecretIDPrefix roleNameHMAC) secretIDHMACs.
Proof.
  revert w. induction secretIDHMACs as [|k rest IH]; intros w Hf.
  - cbn [flushLoop]. run_cases.
    eexists. split; [reflexivity|]. cbn [fold_left flat_map List.length drop].
    rewrite app_nil_r. repeat split; reflexivity.
  - cbn [List.length] in Hf. cbn [flushLoop].
    destruct (faults w) as [|f fs] eqn:Hfw.
    + run_cases.
      match goal with
      | |- context [flushLoop _ _ _ ?w1] =>
          destruct (IH w1) as (w' & Hrun & Hstore & Hfaults & Htrace);
            [run_simpl; rewrite take_nil; constructor|]
      end.
      exists w'. split; [exact Hrun|]. rewrite Hstore, Hfaults, Htrace.
      run_simpl. cbn [fold_left flat_map deleted app List.length]. rewrite !drop_nil.
      repeat split; try reflexivity. flatten_trace. reflexivity.
    + cbn [take] in Hf. inversion Hf as [|? ? Hhd Htl]; subst.
      run_cases.
      match goal with
      | |- context [flushLoop _ _ _ ?w1] =>
          destruct (IH w1) as (w' & Hrun & Hstore & Hfaults & Htrace);
            [run_simpl; exact Htl|]
      end.
      exists w'. split; [exact Hrun|]. rewrite Hstore, Hfaults, Htrace.
      run_simpl. cbn [fold_left flat_map deleted app List.length drop].
      repeat split; try reflexivity. flatten_trace. reflexivity.
Qed.

Lemma flushRoleSecrets_runs (roleName hmacKey roleSecretIDPrefix roleNameHMAC : string)
    (w : world) :
  createHMAC hmacKey roleName = Ok roleNameHMAC ->
  let listed := children (roleSecretIDPrefix +:+ roleNameHMAC +:+ "/") (store w) in
  Forall (fun f => f = None) (take (S (List.length listed)) (faults w)) ->
  let entryIndex := entryIndexOf roleSecretIDPrefix roleNameHMAC in
  exists w',
    flushRoleSecrets roleName hmacKey roleSecretIDPrefix w = (Ok tt, w')
    /\ (forall k, In k listed -> store w' !! entryIndex k = None)
    /\ (forall key, (forall k, In k listed -> entryIndex k <> key) ->
                    store w' !! key = store w !! key)
    /\ faults w' = drop (S (List.length listed)) (faults w).
Proof.
  intros Hr listed Hf entryIndex. subst entryIndex.
  assert (Hhd : hd None (faults w) = None
                /\ Forall (fun f => f = None) (take (List.length listed) (tl (faults w)))
                /\ drop (S (List.length listed)) (faults w)
                   = drop (List.length listed) (tl (faults w))).
  { destruct (faults w) as [|f fs]; cbn [take hd tl drop] in *.
    - rewrite take_nil, !drop_nil. repeat split. constructor.
    - inversion Hf; subst. repeat split. assumption. }
  destruct Hhd as (Hhd & Htl & Hdrop).
  unfold flushRoleSecrets. rewrite Hr.
  unfold lockop, defer, bind at 1. run_simpl.
  unfold bind, s_List, storageCall, nextFault. run_simpl. rewrite Hhd.
  fold listed.
  match goal with
  | |- context [flushLoop _ _ _ ?w1] =>
      destruct (flushLoop_all roleSecretIDPrefix roleNameHMAC listed w1)
        as (w' & Hrun & Hstore & Hfaults & Htrace); [exact Htl|]
  end.
  rewrite Hrun. eexists. split; [reflexivity|].
  run_simpl. rewrite Hstore, Hfaults. run_simpl.
  split; [|split].
  - intros k Hk.
    apply (fold_delete_In (entryIndexOf roleSecretIDPrefix roleNameHMAC)), Hk.
  - intros key Hkey.
    apply (fold_delete_other (entryIndexOf roleSecretIDPrefix roleNameHMAC)), Hkey.
  - symmetry. exact Hdrop.
Qed.

(** X11. When storage serves the listing and every delete, flushRoleSecrets
    returns nil; every SecretID listed under the role has lost its
    credential entry, and every key that is not the entry of a listed
    SecretID is as it was. *)
Theorem flushRoleSecrets_all (roleName hmacKey roleSecretIDPrefix roleNameHMAC : string)
    (w : world) :
  createHMAC hmacKey roleName = Ok roleNameHMAC ->
  let listed := children (roleSecretIDPrefix +:+ roleNameHMAC +:+ "/") (store w) in
  Forall (fun f => f = None) (take (S (List.length listed)) (faults w)) ->
  let entryIndex := entryIndexOf roleSecretIDPrefix roleNameHMAC in
  exists w',
    flushRoleSecrets roleName hmacKey roleSecretIDPrefix w = (Ok tt, w')
    /\ (forall k, In k listed -> store w' !! entryIndex k = None)
    /\ (forall key, (forall k, In k listed -> entryIndex k <> key) ->
                    store w' !! key = store w !! key).
Proof.
  intros Hr listed Hf entryIndex.
  destruct (flushRoleSecrets_runs roleName hmacKey roleSecretIDPrefix roleNameHMAC w Hr Hf)
    as (w' & Hrun & Hgone & Hkept & _).
  exists w'. repeat split; assumption.
Qed.

(** *** What the listing returns *)

Lemma elem_of_children (prefix child : string) (m : gmap string document) :
  In child (children prefix m)
  <-> exists key, is_Some (m !! key) /\ childOf prefix key = Some child.
Proof.
  unfold children. rewrite <- list_elem_of_In, merge_sort_Permutation.
  rewrite elem_of_remove_dups, list_elem_of_omap. split.
  - intros (key & Hkey & Hchild). exists key. split; [|exact Hchild].
    apply list_elem_of_fmap in Hkey as ([k v] & -> & Hkv).
    apply elem_of_map_to_list in Hkv. cbn. eauto.
  - intros (key & [v Hv] & Hchild). exists key. split; [|exact Hchild].
    apply list_elem_of_fmap. exists (key, v). split; [reflexivity|].
    apply elem_of_map_to_list, Hv.
Qed.

Lemma append_String (x : ascii) (a b : string) : String x a +:+ b = String x (a +:+ b).
Proof. reflexivity. Qed.

Lemma append_assoc (a b c : string) : (a +:+ b) +:+ c = a +:+ (b +:+ c).
Proof.
  induction a as [|x a IH]; [reflexivity|]. rewrite !append_String, IH. reflexivity.
Qed.

Lemma prefix_append (p s : string) : String.prefix p (p +:+ s) = true.
Proof.
  induction p as [|x p IH]; [destruct s; reflexivity|].
  rewrite append_String. cbn [String.prefix].
  destruct (ascii_dec x x); [exact IH | contradiction].
Qed.

Lemma length_append (p s : string) :
  String.length (p +:+ s) = (String.length p + String.length s)%nat.
Proof.
  induction p as [|x p IH]; [reflexivity|].
  rewrite append_String. cbn [String.length]. rewrite IH. reflexivity.
Qed.

Lemma substring_all (s : string) : String.substring 0 (String.length s) s = s.
Proof. induction s as [|x s IH]; cbn; [reflexivity | f_equal; exact IH]. Qed.

Lemma substring_append (p s : string) :
  String.substring (String.length p) (String.length s) (p +:+ s) = s.
Proof.
  induction p as [|x p IH]; [apply substring_all|].
  rewrite append_String. cbn [String.length String.substring]. exact IH.
Qed.

Lemma upToSlash_segment (s : string) : Contains s "/" = false -> upToSlash s = s.
Proof.
  induction s as [|c s IH]; [reflexivity|].
  rewrite Contains_String. cbn [String.prefix upToSlash].
  destruct (ascii_dec "/" c) as [<-|Hc].
  - destruct s; discriminate.
  - intros Hs. destruct (Ascii.eqb_spec c "/") as [->|_]; [contradiction|].
    rewrite IH; [reflexivity|]. exact Hs.
Qed.

Lemma childOf_append (prefix segment : string) :
  segment <> "" -> Contains segment "/" = false ->
  childOf prefix (prefix +:+ segment) = Some segment.
Proof.
  intros Hne Hseg. unfold childOf.
  rewrite prefix_append, length_append.
  replace (String.length prefix + String.length segment - String.length prefix)%nat
    with (String.length segment) by lia.
  rewrite substring_append.
  destruct (String.eqb_spec segment ""); [contradiction|].
  rewrite upToSlash_segment by exact Hseg. reflexivity.
Qed.

Lemma entryIndexOf_append (roleSecretIDPrefix roleNameHMAC secretIDHMAC : string) :
  entryIndexOf roleSecretIDPrefix roleNameHMAC secretIDHMAC
  = (roleSecretIDPrefix +:+ roleNameHMAC +:+ "/") +:+ secretIDHMAC.
Proof.
  unfold entryIndexOf. rewrite !append_assoc. reflexivity.
Qed.

(** ** Registration followed by a flush *)

Section RegisterThenFlush.
Context `{Imports}.

Lemma registerSecretIDEntry_store (b : backend)
    (roleName secretID hmacKey roleSecretIDPrefix : string)
    (secretEntry : secretIDStorageEntry) (w : world)
    (secretIDHMAC roleNameHMAC : string) (SaltID : string -> string) :
  createHMAC hmacKey secretID = Ok secretIDHMAC ->
  createHMAC hmacKey roleName = Ok roleNameHMAC ->
  Salt b = Ok SaltID ->
  forall e w1,
    registerSecretIDEntry b roleName secretID hmacKey roleSecretIDPrefix secretEntry w
    = (Ok e, w1) ->
    store w1
    = <[entryIndexOf roleSecretIDPrefix roleNameHMAC secretIDHMAC := DocSecretID e]>
        (<[accessorIndexOf SaltID roleSecretIDPrefix (SecretIDAccessor e)
           := DocAccessor {| SecretIDHMAC := secretIDHMAC |}]> (race w (store w))).
Proof.
  intros Hs Hr Hsalt e w1.
  unfold registerSecretIDEntry, nonLockedSecretIDStorageEntry,
    createSecretIDAccessorEntry, nonLockedSetSecretIDStorageEntry, accessorIndexOf.
  run_cases.
  all: intros [= <- <-]; reflexivity.
Qed.

Lemma prefix_entryIndexOf (roleSecretIDPrefix roleNameHMAC secretIDHMAC : string) :
  String.prefix (roleSecretIDPrefix +:+ roleNameHMAC +:+ "/")
    (entryIndexOf roleSecretIDPrefix roleNameHMAC secretIDHMAC) = true.
Proof. rewrite entryIndexOf_append. apply prefix_append. Qed.

(** X12. A flush of the role, run on the storage a successful registration
    left and served by storage, returns nil and removes the credential entry
    just registered; it does not remove the accessor index entry written for
    it, nor any other key outside the role's prefix: the accessor remains,
    pointing at a SecretID that is gone. *)
Theorem registerSecretIDEntry_then_flush (b : backend)
    (roleName secretID hmacKey roleSecretIDPrefix : string)
    (secretEntry : secretIDStorageEntry) (w : world)
    (secretIDHMAC roleNameHMAC : string) (SaltID : string -> string) :
  createHMAC hmacKey secretID = Ok secretIDHMAC ->
  createHMAC hmacKey roleName = Ok roleNameHMAC ->
  Salt b = Ok SaltID ->
  forall e w1,
    registerSecretIDEntry b roleName secretID hmacKey roleSecretIDPrefix secretEntry w
    = (Ok e, w1) ->
    faults w1 = [] ->
    let accessorIndex := accessorIndexOf SaltID roleSecretIDPrefix (SecretIDAccessor e) in
    exists w2,
      flushRoleSecrets roleName hmacKey roleSecretIDPrefix w1 = (Ok tt, w2)
      /\ store w2 !! entryIndexOf roleSecretIDPrefix roleNameHMAC secretIDHMAC = None
      /\ (forall key,
            String.prefix (roleSecretIDPrefix +:+ roleNameHMAC +:+ "/") key = false ->
            store w2 !! key = store w1 !! key)
      /\ (String.prefix (roleSecretIDPrefix +:+ roleNameHMAC +:+ "/") accessorIndex = false ->
          store w2 !! accessorIndex = Some (DocAccessor {| SecretIDHMAC := secretIDHMAC |})).
Proof.
  intros Hs Hr Hsalt e w1 Hrun Hf accessorIndex.
  pose proof (registerSecretIDEntry_store _ _ _ _ _ _ _ _ _ _ Hs Hr Hsalt _ _ Hrun) as Hstore.
  fold accessorIndex in Hstore.
  destruct (flushRoleSecrets_runs roleName hmacKey roleSecretIDPrefix roleNameHMAC w1 Hr)
    as (w2 & Hflush & Hgone & Hkept & _).
  { rewrite Hf, take_nil. constructor. }
  assert (Houtside : forall key,
             String.prefix (roleSecretIDPrefix +:+ roleNameHMAC +:+ "/") key = false ->
             store w2 !! key = store w1 !! key).
  { intros key Hkey. apply Hkept. intros k _ <-.
    rewrite prefix_entryIndexOf in Hkey. discriminate. }
  exists w2. split; [exact Hflush|]. split; [|split].
  - apply Hgone. apply elem_of_children.
    exists (entryIndexOf roleSecretIDPrefix roleNameHMAC secretIDHMAC). split.
    + rewrite Hstore, lookup_insert_eq. eauto.
    + rewrite entryIndexOf_append. apply childOf_append.
      * apply (createHMAC_Ok_nonempty _ _ _ Hs).
      * apply hex_no_slash, (createHMAC_Ok_hex _ _ _ Hs).
  - exact Houtside.
  - intros Hacc. rewrite (Houtside _ Hacc), Hstore.
    rewrite lookup_insert_ne.
    + apply lookup_insert_eq.
    + intros Heq. rewrite <- Heq, prefix_entryIndexOf in Hacc. discriminate.
Qed.

End RegisterThenFlush.

(** ** Reading an entry twice, writing then reading, validating twice *)

Section EntryProperties.
Context `{Imports}.

Lemma decode_DocSecretID_settled (a s : secretIDStorageEntry) (p : bool)
    (e1 : secretIDStorageEntry) :
  upgrade a = (s, p) ->
  decodeSecretIDStorageEntry (DocSecretID s) = Ok e1 ->
  upgrade e1 = (e1, false).
Proof.
  intros Hup Hdec. apply decode_counts in Hdec as (Hn & Hd & _).
  apply (upgrade_settled a); rewrite Hup; cbn [fst]; assumption.
Qed.

(** X13. The upgrade of the deprecated use count is done once: whatever a
    read through nonLockedSecretIDStorageEntry found and did, a second read
    of the same entry only gets it from storage, writes nothing, and returns
    the same two use counts. *)
Theorem nonLockedSecretIDStorageEntry_second_read
    (roleSecretIDPrefix roleNameHMAC secretIDHMAC : string) (w : world) :
  forall e w1,
    nonLockedSecretIDStorageEntry roleSecretIDPrefix roleNameHMAC secretIDHMAC w
    = (Ok (Some e), w1) ->
    hd None (faults w1) = None ->
    exists e' w2,
      nonLockedSecretIDStorageEntry roleSecretIDPrefix roleNameHMAC secretIDHMAC w1
      = (Ok (Some e'), w2)
      /\ since w1 w2
         = [Storage (Get (entryIndexOf roleSecretIDPrefix roleNameHMAC secretIDHMAC)) None]
      /\ store w2 = store w1
      /\ SecretIDNumUses e' = SecretIDNumUses e
      /\ SecretIDNumUsesDeprecated e' = SecretIDNumUsesDeprecated e.
Proof.
  intros e w1.
  match goal with |- _ -> ?Q => set (after := Q) end.
  unfold nonLockedSecretIDStorageEntry, nonLockedSetSecretIDStorageEntry.
  run_cases.
  all: intros [= <- <-]; subst after; intros Hf; run_simpl_in Hf.
  all: unfold nonLockedSecretIDStorageEntry, nonLockedSetSecretIDStorageEntry.
  all: run_unfold; run_simpl; rewrite_known; run_simpl.
  all: rewrite ?lookup_insert_eq; rewrite_known; run_simpl.
  all: try match goal with
           | Hup : upgrade ?a = (?s, true) |- _ =>
               destruct (decodeSecretIDStorageEntry (DocSecretID s)) as [e1|err] eqn:Hdec;
                 [rewrite (decode_DocSecretID_settled a s true e1 Hup Hdec);
                  apply decode_counts in Hdec as (Hn & Hd & _)
                 | discriminate Hdec]
           end.
  all: eexists _, _; (split; [reflexivity|]); since_trace.
  all: repeat split; try reflexivity; try assumption.
  all: match goal with
       | |- drop (List.length (?t ++ ?a)) (?t ++ ?c) = ?b =>
           change c with (a ++ b); rewrite app_assoc; apply drop_app_length
       end.
Qed.

(** X14. nonLockedSetSecretIDStorageEntry calls storage only with a complete
    key: with an empty prefix, an empty HMAC or a nil entry it returns an
    error and does nothing.  With complete arguments and a storage that
    serves the calls, the entry it stores is the one a following
    nonLockedSecretIDStorageEntry returns (as decoded and upgraded). *)
Theorem nonLockedSetSecretIDStorageEntry_then_read
    (roleSecretIDPrefix roleNameHMAC secretIDHMAC : string) (w : world) :
  (forall secretEntry r w',
     nonLockedSetSecretIDStorageEntry roleSecretIDPrefix roleNameHMAC secretIDHMAC
       secretEntry w = (r, w') ->
     roleSecretIDPrefix = "" \/ secretIDHMAC = "" \/ roleNameHMAC = ""
     \/ secretEntry = None ->
     (exists err, r = Err err) /\ w' = w)
  /\ (forall e,
        roleSecretIDPrefix <> "" -> secretIDHMAC <> "" -> roleNameHMAC <> "" ->
        Forall (fun f => f = None) (take 3 (faults w)) ->
        exists w1,
          nonLockedSetSecretIDStorageEntry roleSecretIDPrefix roleNameHMAC secretIDHMAC
            (Some e) w = (Ok tt, w1)
          /\ store w1
             = <[entryIndexOf roleSecretIDPrefix roleNameHMAC secretIDHMAC := DocSecretID e]>
                 (store w)
          /\ exists e1,
               decodeSecretIDStorageEntry (DocSecretID e) = Ok e1
               /\ exists w2,
                    nonLockedSecretIDStorageEntry roleSecretIDPrefix roleNameHMAC
                      secretIDHMAC w1 = (Ok (Some (fst (upgrade e1))), w2)).
Proof.
  split.
  - intros secretEntry r w'. unfold nonLockedSetSecretIDStorageEntry. run_cases.
    all: intros [= <- <-] Hbad.
    all: try (split; [eexists; reflexivity | reflexivity]).
    all: repeat match goal with
                | E : (_ =? _) = false |- _ => apply String.eqb_neq in E
                end.
    all: destruct Hbad as [?|[?|[?|?]]]; congruence.
  - intros e Hp Hs Hr Hf.
    apply String.eqb_neq in Hp, Hs, Hr.
    assert (Hfs : hd None (faults w) = None
                  /\ hd None (tl (faults w)) = None
                  /\ hd None (tl (tl (faults w))) = None).
    { destruct (faults w) as [|f1 [|f2 [|f3 fs]]]; cbn [take hd tl] in *;
        repeat match goal with
               | F : Forall _ (_ :: _) |- _ => inversion F; subst; clear F
               end; repeat split. }
    destruct Hfs as (Hf1 & Hf2 & Hf3).
    unfold nonLockedSetSecretIDStorageEntry. run_cases.
    eexists. split; [reflexivity|]. run_simpl. split; [reflexivity|].
    eexists. split; [reflexivity|]. cbn [DecodeJSON].
    unfold nonLockedSecretIDStorageEntry, nonLockedSetSecretIDStorageEntry.
    run_cases_store; eexists; reflexivity.
Qed.

End EntryProperties.

(** X15. Validating twice is validating once: a second call of
    verifyCIDRRoleSecretIDSubset on the slices the first call left returns
    the same verdict and changes nothing more, so masks are appended once. *)
Theorem verifyCIDRRoleSecretIDSubset_twice `{Imports}
    (secretIDCIDRs roleBoundCIDRList : nat) (h : heap) :
  elems h secretIDCIDRs <> [] -> elems h roleBoundCIDRList <> [] ->
  let first := verifyCIDRRoleSecretIDSubset secretIDCIDRs roleBoundCIDRList h in
  verifyCIDRRoleSecretIDSubset secretIDCIDRs roleBoundCIDRList (snd first) = first.
Proof.
  intros Hs Hr first. subst first.
  rewrite (verifyCIDRRoleSecretIDSubset_nonempty _ _ h Hs Hr). cbn [snd].
  set (h1 := <[roleBoundCIDRList := withMask <$> elems h roleBoundCIDRList]> h).
  assert (Hr1 : elems h1 roleBoundCIDRList = withMask <$> elems h roleBoundCIDRList).
  { unfold h1. rewrite elems_insert.
    destruct (decide (roleBoundCIDRList = roleBoundCIDRList)); [reflexivity|congruence]. }
  assert (Hh : <[roleBoundCIDRList := withMask <$> elems h1 roleBoundCIDRList]> h1 = h1).
  { rewrite Hr1. unfold h1. rewrite insert_insert_eq. f_equal.
    rewrite <- list_fmap_compose. apply list_fmap_ext. intros i x _. apply withMask_idem. }
  rewrite verifyCIDRRoleSecretIDSubset_nonempty.
  - rewrite Hh. reflexivity.
  - unfold h1. rewrite elems_insert.
    destruct (decide (roleBoundCIDRList = secretIDCIDRs)); [|exact Hs].
    destruct (elems h roleBoundCIDRList); [congruence | discriminate].
  - rewrite Hr1. destruct (elems h roleBoundCIDRList); [congruence | discriminate].
Qed.

(** X16. With a max lease TTL that is not negative, the effective TTL lies
    between 0 and the max, and a SecretID registered from an entry with no
    expiration time either never expires (expiration time zero) or expires
    after its creation and no later than the max lease TTL after it. *)
Theorem registerSecretIDEntry_expiration_window `{Imports} (b : backend)
    (roleName secretID hmacKey roleSecretIDPrefix : string)
    (secretEntry : secretIDStorageEntry) (w : world) :
  (0 <= MaxLeaseTTL b)%Z ->
  (forall ttl, 0 <= deriveSecretIDTTL b ttl <= MaxLeaseTTL b)%Z
  /\ forall e w',
       registerSecretIDEntry b roleName secretID hmacKey roleSecretIDPrefix secretEntry w
       = (Ok e, w') ->
       ExpirationTime secretEntry = 0%Z ->
       ExpirationTime e = 0%Z
       \/ (CreationTime e < ExpirationTime e <= CreationTime e + MaxLeaseTTL b)%Z.
Proof.
  intros Hmax.
  assert (Hb : forall ttl, (0 <= deriveSecretIDTTL b ttl <= MaxLeaseTTL b)%Z).
  { intros ttl. unfold deriveSecretIDTTL.
    destruct (Z.ltb_spec ttl 0), (Z.gtb_spec ttl (MaxLeaseTTL b)); cbn; lia. }
  split; [exact Hb|]. intros e w'.
  unfold registerSecretIDEntry, nonLockedSecretIDStorageEntry,
    createSecretIDAccessorEntry, nonLockedSetSecretIDStorageEntry.
  run_cases.
  all: intros [= <- <-] Hzero; cbn [CreationTime ExpirationTime setAccessor setTimes].
  all: repeat match goal with
              | E : negb _ = true |- _ => apply negb_true_iff in E
              | E : negb _ = false |- _ => apply negb_false_iff in E
              | E : (_ =? _)%Z = true |- _ => apply Z.eqb_eq in E
              | E : (_ =? _)%Z = false |- _ => apply Z.eqb_neq in E
              end.
  all: pose proof (Hb (SecretIDTTL secretEntry)); lia.
Qed.

(** ** Every run of the accessor creation and of the entry read; the frame
       of a registration *)

Section EveryRun.
Context `{Imports}.

(** X17. In every run of createSecretIDAccessorEntry the accessor's lock has
    been released at return, and storage is called at most once, to put an
    accessor index entry naming the given SecretID HMAC.  Whenever the call
    fails (no UUID, no salt, or the put fails) storage is unchanged, and a
    failed put comes back wrapped as "failed to persist accessor index
    entry". *)
Theorem createSecretIDAccessorEntry_every_run (b : backend) (entry : secretIDStorageEntry)
    (secretIDHMAC roleSecretIDPrefix : string) (w : world) :
  forall r w',
    createSecretIDAccessorEntry b entry secretIDHMAC roleSecretIDPrefix w = (r, w') ->
    locksHeld (since w w') [] = Some []
    /\ (storageCalls (since w w') = []
        \/ exists key outcome,
             storageCalls (since w w')
             = [(Put key (DocAccessor {| SecretIDHMAC := secretIDHMAC |}), outcome)])
    /\ (forall err, r = Err err -> store w' = store w)
    /\ (forall key d err,
          In (Storage (Put key d) (Some err)) (since w w') ->
          r = Err (fmt_Errorf "failed to persist accessor index entry: %w" [] (Some err))).
Proof.
  intros r w'. unfold createSecretIDAccessorEntry. run_cases.
  all: intros [= <- <-]; since_trace.
  all: (split; [locks_balanced|]).
  all: (split; [first [left; reflexivity | right; eexists _, _; reflexivity]|]).
  all: (split; [intros err0 Herr; try discriminate Herr; reflexivity|]).
  all: intros key d err0 Hin; cbn [In] in Hin;
    repeat (destruct Hin as [Hin|Hin]; [try discriminate Hin|]); try contradiction.
  all: injection Hin as <- <- <-; reflexivity.
Qed.

(** X18. nonLockedSecretIDStorageEntry takes no lock, in any run.  It calls
    storage to get the entry at the SecretID's key and, only after a get that
    succeeded, at most once more to put the upgraded entry at that same key.
    With an empty SecretID HMAC or role name HMAC it fails before calling
    storage.  Whenever it fails, storage is unchanged. *)
Theorem nonLockedSecretIDStorageEntry_every_run
    (roleSecretIDPrefix roleNameHMAC secretIDHMAC : string) (w : world) :
  forall r w',
    nonLockedSecretIDStorageEntry roleSecretIDPrefix roleNameHMAC secretIDHMAC w = (r, w') ->
    let entryIndex := entryIndexOf roleSecretIDPrefix roleNameHMAC secretIDHMAC in
    (forall op l, ~ In (Locking op l) (since w w'))
    /\ (storageCalls (since w w') = []
        \/ (exists outcome, storageCalls (since w w') = [(Get entryIndex, outcome)])
        \/ (exists e outcome,
              storageCalls (since w w')
              = [(Get entryIndex, None); (Put entryIndex (DocSecretID e), outcome)]))
    /\ (secretIDHMAC = "" \/ roleNameHMAC = "" ->
        (exists err, r = Err err) /\ w' = w)
    /\ (forall err, r = Err err -> store w' = store w).
Proof.
  intros r w'.
  unfold nonLockedSecretIDStorageEntry, nonLockedSetSecretIDStorageEntry.
  run_cases.
  all: intros [= <- <-]; cbv zeta; since_trace.
  all: repeat match goal with
              | E : (_ =? _) = false |- _ => apply String.eqb_neq in E
              end.
  all: (split; [intros op l Hin; cbn [In] in Hin;
                repeat (destruct Hin as [Hin|Hin]; [discriminate Hin|]); contradiction|]).
  all: (split; [first [ left; reflexivity
                      | right; left; eexists; reflexivity
                      | right; right; eexists _, _; reflexivity ]|]).
  all: (split; [intros [He|He]; try contradiction;
                (split; [eexists; reflexivity | reflexivity])|]).
  all: intros err0 Herr; try discriminate Herr; reflexivity.
Qed.

(** X19. A registration leaves the rest of storage alone: when no other
    goroutine writes during the lock switch, every key other than the
    SecretID's entry key and the key of an accessor index entry the call
    wrote holds after the call what it held before, in every run. *)
Theorem registerSecretIDEntry_frame (b : backend)
    (roleName secretID hmacKey roleSecretIDPrefix : string)
    (secretEntry : secretIDStorageEntry) (w : world) :
  (forall m, race w m = m) ->
  forall r w' key,
    registerSecretIDEntry b roleName secretID hmacKey roleSecretIDPrefix secretEntry w
    = (r, w') ->
    key <> entryIndexOf roleSecretIDPrefix (digestOf hmacKey roleName)
             (digestOf hmacKey secretID) ->
    (forall a outcome, ~ In (Storage (Put key (DocAccessor a)) outcome) (since w w')) ->
    store w' !! key = store w !! key.
Proof.
  intros Hrace r w' key.
  unfold registerSecretIDEntry, nonLockedSecretIDStorageEntry,
    createSecretIDAccessorEntry, nonLockedSetSecretIDStorageEntry, digestOf.
  run_cases.
  all: intros [= <- <-] Hkey; since_trace; intros Hno; run_simpl; rewrite ?Hrace.
  all: try reflexivity.
  all: repeat match goal with
              | |- <[?k := ?v]> ?m !! ?key0 = _ =>
                  rewrite lookup_insert_ne;
                    [| first [ congruence
                             | intros <-; eapply Hno; cbn [In]; tauto ] ]
              end.
  all: reflexivity.
Qed.

End EveryRun.

(** ** The further properties on sample runs *)

Lemma pair_of_fst {A B : Type} (p : A * B) (a : A) : fst p = a -> p = (a, snd p).
Proof. destruct p. cbn. intros ->. reflexivity. Qed.

Lemma sampleRegistration_succeeds :
  registerSecretIDEntry (H := sampleImports) sampleBackend "role1" "secret1" "hmac-key"
    "secret_id/" oneUseEntry freshWorld
  = (Ok registeredEntry, registeredWorld).
Proof.
  unfold registeredWorld, sampleRegistration, registeredEntry.
  apply pair_of_fst. exact sample_registration_succeeds.
Qed.

Lemma registeredWorld_faults : faults registeredWorld = [].
Proof. vm_compute. reflexivity. Qed.

Lemma legacyRead_upgrades :
  nonLockedSecretIDStorageEntry (H := sampleImports) "secret_id/"
    (digestOf "hmac-key" "role1") (digestOf "hmac-key" "secret1") legacyWorld
  = (Ok (Some (withNumUses 5 5)), snd legacyRead).
Proof. unfold legacyRead. apply pair_of_fst. vm_compute. reflexivity. Qed.

Lemma createSecretIDAccessorEntry_then_read_witness :
  exists w2,
    secretIDAccessorEntry (H := sampleImports) sampleBackend "uuid-0001" "secret_id/"
      (snd sampleAccessorCreation)
    = (Ok (Some {| SecretIDHMAC := digestOf "hmac-key" "secret1" |}), w2)
    /\ store w2 = store (snd sampleAccessorCreation).
Proof.
  apply (createSecretIDAccessorEntry_then_read (H := sampleImports) sampleBackend oneUseEntry
           (digestOf "hmac-key" "secret1") "secret_id/" freshWorld
           (setAccessor "uuid-0001" oneUseEntry) (snd sampleAccessorCreation)).
  - apply injective_projections; [vm_compute|]; reflexivity.
  - discriminate.
  - vm_compute. reflexivity.
Defined.

Lemma secretIDAccessorEntry_read_only_witness :
  store (snd (secretIDAccessorEntry (H := sampleImports) sampleBackend "uuid-0001"
                "secret_id/" registeredWorld))
  = store registeredWorld
  /\ fst (secretIDAccessorEntry (H := sampleImports) sampleBackend "no-such-accessor"
            "secret_id/" registeredWorld) = Ok None.
Proof.
  split.
  - apply (secretIDAccessorEntry_read_only (H := sampleImports) sampleBackend "uuid-0001"
             "secret_id/" registeredWorld _ _ (surjective_pairing _)).
  - refine (proj2 (proj2 (proj2 (proj2
             (secretIDAccessorEntry_read_only (H := sampleImports) sampleBackend
                "no-such-accessor" "secret_id/" registeredWorld _ _ (surjective_pairing _)))))
             (fun id => "salt:" +:+ id) _ _ _ _).
    + discriminate.
    + reflexivity.
    + vm_compute. reflexivity.
    + vm_compute. reflexivity.
Defined.

Lemma deleteSecretIDAccessorEntry_removes_witness :
  exists w1,
    deleteSecretIDAccessorEntry (H := sampleImports) sampleBackend "uuid-0001" "secret_id/"
      registeredWorld = (Ok tt, w1)
    /\ store w1 !! "accessor/salt:uuid-0001" = None.
Proof.
  destruct (deleteSecretIDAccessorEntry_removes (H := sampleImports) sampleBackend "uuid-0001"
              "secret_id/" (fun id => "salt:" +:+ id) registeredWorld)
    as (w1 & Hrun & Hstore & _).
  - reflexivity.
  - vm_compute. reflexivity.
  - exists w1. split; [exact Hrun|]. rewrite Hstore. apply lookup_delete_eq.
Defined.

Lemma deleteSecretIDAccessorEntry_every_run_witness :
  locksHeld
    (since (setFaults [Some storageDown] registeredWorld)
       (snd (deleteSecretIDAccessorEntry (H := sampleImports) sampleBackend "uuid-0001"
               "secret_id/" (setFaults [Some storageDown] registeredWorld)))) []
  = Some []
  /\ fst (deleteSecretIDAccessorEntry (H := sampleImports) sampleBackend "uuid-0001"
            "secret_id/" (setFaults [Some storageDown] registeredWorld))
     = Err (fmt_Errorf "failed to delete accessor storage entry: %w" [] (Some storageDown)).
Proof.
  destruct (deleteSecretIDAccessorEntry_every_run (H := sampleImports) sampleBackend
              "uuid-0001" "secret_id/" (setFaults [Some storageDown] registeredWorld)
              _ _ (surjective_pairing _)) as (Hlocks & _ & Hfail).
  split; [exact Hlocks|].
  apply (Hfail "accessor/salt:uuid-0001" storageDown). vm_compute. tauto.
Defined.

Lemma registerSecretIDEntry_then_lookups_witness :
  (exists w2,
     secretIDAccessorEntry (H := sampleImports) sampleBackend
       (SecretIDAccessor registeredEntry) "secret_id/" registeredWorld
     = (Ok (Some {| SecretIDHMAC := digestOf "hmac-key" "secret1" |}), w2))
  /\ (exists e1,
        decodeSecretIDStorageEntry (H := sampleImports) (DocSecretID registeredEntry) = Ok e1
        /\ exists w2,
             nonLockedSecretIDStorageEntry (H := sampleImports) "secret_id/"
               (digestOf "hmac-key" "role1") (digestOf "hmac-key" "secret1") registeredWorld
             = (Ok (Some (fst (upgrade e1))), w2)).
Proof.
  apply (registerSecretIDEntry_then_lookups (H := sampleImports) sampleBackend "role1"
           "secret1" "hmac-key" "secret_id/" oneUseEntry freshWorld
           (digestOf "hmac-key" "secret1") (digestOf "hmac-key" "role1")
           (fun id => "salt:" +:+ id)).
  - vm_compute. reflexivity.
  - vm_compute. reflexivity.
  - reflexivity.
  - exact sampleRegistration_succeeds.
  - discriminate.
  - vm_compute. discriminate.
  - exact registeredWorld_faults.
Defined.

Lemma registerSecretIDEntry_twice_witness :
  exists w2,
    registerSecretIDEntry (H := sampleImports) sampleBackend "role1" "secret1" "hmac-key"
      "secret_id/" legacyEntry registeredWorld
    = (Err (errors_New "SecretID is already registered"), w2)
    /\ uuids w2 = uuids registeredWorld.
Proof.
  apply (registerSecretIDEntry_twice (H := sampleImports) sampleBackend "role1" "secret1"
           "hmac-key" "secret_id/" oneUseEntry freshWorld registeredEntry registeredWorld).
  - exact sampleRegistration_succeeds.
  - exact registeredWorld_faults.
Defined.

Lemma registerSecretIDEntry_every_run_witness :
  locksHeld
    (since accessorFailsWorld
       (snd (registerSecretIDEntry (H := sampleImports) sampleBackend "role1" "secret1"
               "hmac-key" "secret_id/" oneUseEntry accessorFailsWorld))) []
  = Some [].
Proof.
  apply (registerSecretIDEntry_every_run (H := sampleImports) sampleBackend "role1" "secret1"
           "hmac-key" "secret_id/" oneUseEntry accessorFailsWorld _ _ (surjective_pairing _)).
Defined.


Lemma flushRoleSecrets_every_run_witness :
  locksHeld
    (since flushWorldB (snd (flushRoleSecrets "role1" "hmac-key" "secret_id/" flushWorldB))) []
  = Some [].
Proof.
  apply (flushRoleSecrets_every_run "role1" "hmac-key" "secret_id/" flushWorldB _ _
           (surjective_pairing _)).
Defined.

Lemma flushRoleSecrets_all_witness :
  exists w',
    flushRoleSecrets "role1" "hmac-key" "secret_id/" registeredWorld = (Ok tt, w')
    /\ store w' !! "accessor/salt:uuid-0001" = store registeredWorld !! "accessor/salt:uuid-0001".
Proof.
  destruct (flushRoleSecrets_all "role1" "hmac-key" "secret_id/" (digestOf "hmac-key" "role1")
              registeredWorld) as (w' & Hrun & _ & Hkept).
  - vm_compute. reflexivity.
  - vm_compute. constructor.
  - exists w'. split; [exact Hrun|]. apply Hkept.
    intros k _. vm_compute. discriminate.
Defined.

Lemma registerSecretIDEntry_then_flush_witness :
  exists w2,
    flushRoleSecrets "role1" "hmac-key" "secret_id/" registeredWorld = (Ok tt, w2)
    /\ store w2 !! sampleKey = None
    /\ store w2 !! "accessor/salt:uuid-0001"
       = Some (DocAccessor {| SecretIDHMAC := digestOf "hmac-key" "secret1" |}).
Proof.
  destruct (registerSecretIDEntry_then_flush (H := sampleImports) sampleBackend "role1"
              "secret1" "hmac-key" "secret_id/" oneUseEntry freshWorld
              (digestOf "hmac-key" "secret1") (digestOf "hmac-key" "role1")
              (fun id => "salt:" +:+ id)
              ltac:(vm_compute; reflexivity) ltac:(vm_compute; reflexivity) eq_refl
              registeredEntry registeredWorld)
    as (w2 & Hrun & Hgone & _ & Hacc).
  - exact sampleRegistration_succeeds.
  - exact registeredWorld_faults.
  - exists w2. split; [exact Hrun|]. split; [exact Hgone|].
    apply Hacc. vm_compute. reflexivity.
Defined.

Lemma nonLockedSecretIDStorageEntry_second_read_witness :
  exists e' w2,
    nonLockedSecretIDStorageEntry (H := sampleImports) "secret_id/"
      (digestOf "hmac-key" "role1") (digestOf "hmac-key" "secret1") (snd legacyRead)
    = (Ok (Some e'), w2)
    /\ since (snd legacyRead) w2 = [Storage (Get sampleKey) None]
    /\ SecretIDNumUses e' = 5%Z.
Proof.
  destruct (nonLockedSecretIDStorageEntry_second_read (H := sampleImports) "secret_id/"
              (digestOf "hmac-key" "role1") (digestOf "hmac-key" "secret1") legacyWorld
              (withNumUses 5 5) (snd legacyRead))
    as (e' & w2 & Hrun & Hsince & _ & Hn & _).
  - exact legacyRead_upgrades.
  - vm_compute. reflexivity.
  - exists e', w2. split; [exact Hrun|]. split; [exact Hsince | exact Hn].
Defined.

Lemma nonLockedSetSecretIDStorageEntry_then_read_witness :
  exists w1,
    nonLockedSetSecretIDStorageEntry "secret_id/" (digestOf "hmac-key" "role1")
      (digestOf "hmac-key" "secret1") (Some legacyEntry) freshWorld = (Ok tt, w1)
    /\ exists e1,
         decodeSecretIDStorageEntry (H := sampleImports) (DocSecretID legacyEntry) = Ok e1
         /\ exists w2,
              nonLockedSecretIDStorageEntry (H := sampleImports) "secret_id/"
                (digestOf "hmac-key" "role1") (digestOf "hmac-key" "secret1") w1
              = (Ok (Some (fst (upgrade e1))), w2).
Proof.
  destruct (proj2 (nonLockedSetSecretIDStorageEntry_then_read (H := sampleImports)
                     "secret_id/" (digestOf "hmac-key" "role1")
                     (digestOf "hmac-key" "secret1") freshWorld) legacyEntry)
    as (w1 & Hset & _ & Hread).
  - discriminate.
  - vm_compute. discriminate.
  - vm_compute. discriminate.
  - constructor.
  - exists w1. split; [exact Hset | exact Hread].
Defined.

Lemma verifyCIDRRoleSecretIDSubset_twice_witness :
  verifyCIDRRoleSecretIDSubset (H := sampleImports) 0 1
    (snd (verifyCIDRRoleSecretIDSubset (H := sampleImports) 0 1 sampleHeap))
  = verifyCIDRRoleSecretIDSubset (H := sampleImports) 0 1 sampleHeap.
Proof.
  apply (verifyCIDRRoleSecretIDSubset_twice (H := sampleImports) 0 1 sampleHeap).
  - vm_compute. discriminate.
  - vm_compute. discriminate.
Defined.

Lemma registerSecretIDEntry_expiration_window_witness :
  ExpirationTime registeredEntry = 0%Z
  \/ (CreationTime registeredEntry < ExpirationTime registeredEntry
      <= CreationTime registeredEntry + MaxLeaseTTL sampleBackend)%Z.
Proof.
  refine (proj2 (registerSecretIDEntry_expiration_window (H := sampleImports) sampleBackend
                   "role1" "secret1" "hmac-key" "secret_id/" oneUseEntry freshWorld _)
            registeredEntry registeredWorld _ _).
  - discriminate.
  - exact sampleRegistration_succeeds.
  - reflexivity.
Defined.

Lemma createSecretIDAccessorEntry_every_run_witness :
  locksHeld
    (since (setFaults [Some storageDown] freshWorld)
       (snd (createSecretIDAccessorEntry (H := sampleImports) sampleBackend oneUseEntry
               (digestOf "hmac-key" "secret1") "secret_id/"
               (setFaults [Some storageDown] freshWorld)))) []
  = Some [].
Proof.
  apply (createSecretIDAccessorEntry_every_run (H := sampleImports) sampleBackend oneUseEntry
           (digestOf "hmac-key" "secret1") "secret_id/"
           (setFaults [Some storageDown] freshWorld) _ _ (surjective_pairing _)).
Defined.

Lemma nonLockedSecretIDStorageEntry_every_run_witness :
  forallb (fun e => match e with Locking _ _ => false | Storage _ _ => true end)
    (since legacyWorld
       (snd (nonLockedSecretIDStorageEntry (H := sampleImports) "secret_id/"
               (digestOf "hmac-key" "role1") (digestOf "hmac-key" "secret1") legacyWorld)))
  = true.
Proof.
  pose proof (proj1 (nonLockedSecretIDStorageEntry_every_run (H := sampleImports) "secret_id/"
                       (digestOf "hmac-key" "role1") (digestOf "hmac-key" "secret1")
                       legacyWorld _ _ (surjective_pairing _))) as Hnone.
  apply forallb_forall. intros [c o|op l] Hin; [reflexivity|].
  destruct (Hnone op l Hin).
Defined.

Lemma registerSecretIDEntry_frame_witness :
  store (snd (registerSecretIDEntry (H := sampleImports) sampleBackend "role1" "secret2"
                "hmac-key" "secret_id/" oneUseEntry legacyWorld)) !! sampleKey
  = store legacyWorld !! sampleKey.
Proof.
  apply (registerSecretIDEntry_frame (H := sampleImports) sampleBackend "role1" "secret2"
           "hmac-key" "secret_id/" oneUseEntry legacyWorld (fun m => eq_refl) _ _ sampleKey
           (surjective_pairing _)).
  - vm_compute. discriminate.
  - intros a outcome. vm_compute. intuition discriminate.
Defined.
